(** * p_winds.transit: transit grids and transmission profiles

    A shallow embedding of [src/p_winds/transit.py] and the properties its
    specification states about it.

    Conventions of the embedding.
    - Python [float]s and NumPy [float64] entries are read as real numbers
      ([R]): rounding is outside the model.
    - Python [int]s are [Z]; [//] on integers is [Z.div] (both floor).
    - [draw_transit] is read twice.  The first reading, [draw_transit], is
      over the reals and the integers.  The second, [draw_transit_np],
      keeps what the first leaves out: the NaN and the infinities that a
      division by a zero normalisation puts into the flux map, and the
      64-bit integers of the radius map, whose squares wrap around and
      whose square root is NaN for a negative sum.  The two agree where the
      star covers a pixel and the offsets fit 64 bits.
    - A one-dimensional array is a [list R]; a two-dimensional array is a
      list of rows, row index first, as NumPy prints it.
    - A Python exception is a [Raise] result. *)

From Stdlib Require Import Reals ZArith List Lia Lra Permutation Sorted.
Import ListNotations.
Open Scope R_scope.

(** ** Exceptions *)

Inductive exn : Type :=
| TypeError
| ValueError
| IndexError
| ZeroDivisionError.

Inductive result (A : Type) : Type :=
| Ok (a : A)
| Raise (e : exn).

Arguments Ok {A} a.
Arguments Raise {A} e.

Definition bind {A B : Type} (m : result A) (k : A -> result B) : result B :=
  match m with
  | Ok a => k a
  | Raise e => Raise e
  end.

Notation "x <- m ;; k" := (bind m (fun x => k))
  (at level 61, m at next level, right associativity).

(** ** Python scalars *)

(** [int(x)] on a float: the integer part, truncated towards zero. *)
Definition py_int (x : R) : Z :=
  if Rle_dec 0 x then Zfloor x else Zceil x.

(** [a // b] on floats: the floor of the quotient, still a float. *)
Definition py_floordiv (a b : R) : R := IZR (Zfloor (a / b)).

(** The specification's [round_toward_zero], written from its words: drop
    the fractional part of the magnitude and keep the sign. *)
Definition round_toward_zero (x : R) : Z :=
  ((if Rlt_dec x 0 then -1 else 1) * Zfloor (Rabs x))%Z.

(** ** NumPy arrays *)

Definition array1 : Type := list R.
Definition array2 : Type := list (list R).

(** [np.linspace(0, n - 1, n, dtype=int)]: the integers [0 .. n-1]. *)
Definition linspace_int (n : Z) : list Z := map Z.of_nat (seq 0 (Z.to_nat n)).

Definition np_sum1 (a : array1) : R := fold_right Rplus 0 a.

(** [np.sum] of a two-dimensional array: the sum of all entries. *)
Definition np_sum (a : array2) : R := np_sum1 (map np_sum1 a).

Fixpoint map2 {A B C : Type} (f : A -> B -> C) (l : list A) (l' : list B)
  : list C :=
  match l, l' with
  | a :: t, b :: t' => f a b :: map2 f t t'
  | _, _ => []
  end.

(** [np.sum(a, axis=0)]: the sum of the rows. *)
Definition np_sum_axis0 (a : array2) : array1 :=
  match a with
  | [] => []
  | row :: rows => fold_left (map2 Rplus) rows row
  end.

(** Entrywise operations on two-dimensional arrays. *)
Definition amap (f : R -> R) (a : array2) : array2 := map (map f) a.
Definition amap2 (f : R -> R -> R) (a b : array2) : array2 :=
  map2 (map2 f) a b.

(** [a.clip(min=m)]. *)
Definition clip_min (m : R) (a : array2) : array2 := amap (fun v => Rmax v m) a.

Definition zeros_like (a : array2) : array2 := amap (fun _ => 0) a.

(** [np.reshape(flat, (rows, cols))] of a flat sequence, row-major. *)
Fixpoint reshape (rows cols : nat) (flat : list R) : array2 :=
  match rows with
  | O => []
  | S r => firstn cols flat :: reshape r cols (skipn cols flat)
  end.

(** [np.meshgrid(xs, ys)]: the two coordinate arrays, one row for each
    element of [ys]. *)
Definition meshgrid (xs ys : list Z) : list (list Z) * list (list Z) :=
  (map (fun _ => xs) ys, map (fun y => map (fun _ => y) xs) ys).

(** [a.T] of an array of shape [(n0, n1, n2)]: the axes in reverse order,
    [a.T[j][i][k] = a[k][i][j]]. *)
Definition transpose3 (n0 n1 n2 : nat) (a : list (list (list Z)))
  : list (list (list Z)) :=
  map (fun j =>
         map (fun i =>
                map (fun k => nth j (nth i (nth k a []) []) 0%Z) (seq 0 n0))
             (seq 0 n1))
      (seq 0 n2).

(** [a.T] of a two-dimensional array of shape [(n0, n1)]. *)
Definition transpose2 (n0 n1 : nat) (a : array2) : array2 :=
  map (fun j => map (fun i => nth j (nth i a []) 0) (seq 0 n0)) (seq 0 n1).

(** [np.sum(a ** 2, axis=-1) ** 0.5] of an array of integers with three
    axes. *)
Definition norm_last_axis (a : list (list (list Z))) : array2 :=
  map (map (fun c =>
              sqrt (IZR (fold_right Z.add 0%Z (map (fun v => v ^ 2)%Z c)))))
      a.

(** The square array whose entry in row [y], column [x] is [f x y]. *)
Definition tabulate (n : Z) (f : Z -> Z -> R) : array2 :=
  map (fun y => map (fun x => f x y) (linspace_int n)) (linspace_int n).

Definition row_sum (n : Z) (f : Z -> Z -> R) (y : Z) : R :=
  np_sum1 (map (fun x => f x y) (linspace_int n)).

(** Entry [a[y][x]]; [0] off the array. *)
Definition entry (a : array2) (x y : Z) : R :=
  nth (Z.to_nat x) (nth (Z.to_nat y) a []) 0.

(** The shape [(rows, cols)] test. *)
Definition has_shape {A : Type} (rows cols : nat) (a : list (list A)) : Prop :=
  length a = rows /\ Forall (fun row => length row = cols) a.

(** Entry [a[y][x]] where the array has one, and nothing off the array. *)
Definition entry_at {A : Type} (a : list (list A)) (x y : Z) : option A :=
  match nth_error a (Z.to_nat y) with
  | Some row => nth_error row (Z.to_nat x)
  | None => None
  end.

(** ** float64 with its special values

    NumPy's division of an array by a scalar raises nothing: a zero
    divisor gives NaN or an infinity, and these values go through the
    arithmetic that follows. *)

Inductive npfloat : Type :=
| Fin (v : R)
| PosInf
| NegInf
| NaN.

Definition nparray2 : Type := list (list npfloat).

(** [a / b] for two finite floats; the zero divisor that occurs here is the
    sum [+0.0] of an array of zeros. *)
Definition np_true_divide (a b : R) : npfloat :=
  if Req_dec_T b 0
  then if Req_dec_T a 0 then NaN
       else if Rlt_dec 0 a then PosInf else NegInf
  else Fin (a / b).

Definition np_subtract (a b : npfloat) : npfloat :=
  match a, b with
  | NaN, _ => NaN
  | _, NaN => NaN
  | Fin u, Fin v => Fin (u - v)
  | Fin _, PosInf => NegInf
  | Fin _, NegInf => PosInf
  | PosInf, PosInf => NaN
  | PosInf, _ => PosInf
  | NegInf, NegInf => NaN
  | NegInf, _ => NegInf
  end.

(** [a.clip(min=m)] on one entry: NaN stays NaN. *)
Definition np_clip_min (m : R) (a : npfloat) : npfloat :=
  match a with
  | Fin v => Fin (Rmax v m)
  | PosInf => PosInf
  | NegInf => Fin m
  | NaN => NaN
  end.

(** [a >= m]: every comparison with NaN is false. *)
Definition np_ge (a : npfloat) (m : R) : Prop :=
  match a with
  | Fin v => m <= v
  | PosInf => True
  | NegInf => False
  | NaN => False
  end.

(** [a * k] for a finite float [k]. *)
Definition np_multiply (a : npfloat) (k : R) : npfloat :=
  match a with
  | Fin v => Fin (v * k)
  | PosInf =>
      if Rlt_dec 0 k then PosInf else if Rlt_dec k 0 then NegInf else NaN
  | NegInf =>
      if Rlt_dec 0 k then NegInf else if Rlt_dec k 0 then PosInf else NaN
  | NaN => NaN
  end.

(** ** 64-bit integers

    [np.linspace(..., dtype=int)] makes an array of 64-bit integers, and
    the arithmetic on it stays in 64 bits: a result beyond the range wraps
    around. *)

Definition int64_max : Z := 2 ^ 63 - 1.

Definition wrap_int64 (z : Z) : Z := ((z + 2 ^ 63) mod 2 ^ 64 - 2 ^ 63)%Z.

(** [s ** 0.5] for a 64-bit integer [s]: the square root as a float, NaN
    for a negative [s]. *)
Definition np_sqrt_int (s : Z) : npfloat :=
  if (s <? 0)%Z then NaN else Fin (sqrt (IZR s)).

(** [np.sum(a ** 2, axis=-1) ** 0.5] of an array of 64-bit integers with
    three axes. *)
Definition norm_last_axis_int64 (a : list (list (list Z))) : nparray2 :=
  map (map (fun c =>
              np_sqrt_int
                (fold_right (fun v s => wrap_int64 (v + s)) 0%Z
                   (map (fun v => wrap_int64 (v ^ 2)) c))))
      a.

(** [a.T] of a two-dimensional array of floats of shape [(n0, n1)]. *)
Definition transpose2_np (n0 n1 : nat) (a : nparray2) : nparray2 :=
  map (fun j => map (fun i => nth j (nth i a []) NaN) (seq 0 n0)) (seq 0 n1).

(** The square array of any entries whose entry in row [y], column [x] is
    [f x y]. *)
Definition gtabulate {A : Type} (n : Z) (f : Z -> Z -> A) : list (list A) :=
  map (fun y => map (fun x => f x y) (linspace_int n)) (linspace_int n).

(** ** scipy.interpolate.interp1d, kind linear

    The library function as its documentation and its use here determine
    it: the samples are sorted by abscissa, the value between two
    neighbouring samples lies on the segment that joins them, and outside
    the sampled range the value is the fill value. *)

(** Stable insertion of a sample by abscissa, and the stable sort that
    [interp1d] applies to its samples ([assume_sorted=False]). *)
Fixpoint insert_sample (p : R * R) (l : list (R * R)) : list (R * R) :=
  match l with
  | [] => [p]
  | q :: t => if Rle_dec (fst p) (fst q) then p :: q :: t
              else q :: insert_sample p t
  end.

Definition sort_samples (l : list (R * R)) : list (R * R) :=
  fold_right insert_sample [] l.

(** Linear interpolation over sorted samples at a point [r] that is not left
    of the first abscissa: the segment whose right end is the first abscissa
    strictly above [r]; the last ordinate when there is none. *)
Fixpoint interp_sorted (pts : list (R * R)) (r : R) : R :=
  match pts with
  | [] => 0
  | (x0, y0) :: tl =>
      match tl with
      | [] => y0
      | (x1, y1) :: _ =>
          if Rlt_dec r x1 then (y1 - y0) / (x1 - x0) * (r - x0) + y0
          else interp_sorted tl r
      end
  end.

(** The interpolating function [f] of
    [interp1d(x, y, bounds_error=False, fill_value=fill)]: the fill value
    outside [[x[0], x[-1]]] of the sorted abscissas. *)
Definition interp_eval (fill : R) (pts : list (R * R)) (r : R) : R :=
  match pts with
  | [] => fill
  | (x0, _) :: _ =>
      if Rlt_dec r x0 then fill
      else if Rlt_dec (fst (last pts (0, 0))) r then fill
      else interp_sorted pts r
  end.

(** The constructor compares the lengths only when [x] is given, and
    refuses arrays of different lengths with [ValueError]; it then sorts the
    samples, and indexing the zero-dimensional array that [None] becomes
    raises [IndexError]; at last it refuses empty arrays with
    [ValueError]. *)
Definition interp1d (x : option array1) (y : array1) (fill : R)
  : result (R -> R) :=
  match x with
  | None => Raise IndexError
  | Some xs =>
      if negb (Nat.eqb (length xs) (length y)) then Raise ValueError
      else if Nat.eqb (length xs) 0 then Raise ValueError
      else Ok (interp_eval fill (sort_samples (combine xs y)))
  end.

(** [f(r)] for the function [f] that
    [interp1d(..., bounds_error=False, fill_value=fill)] returns: NaN at
    NaN, which is neither below nor above the range, and the fill value at
    an infinity. *)
Definition np_interp_call (f : R -> R) (fill : R) (r : npfloat) : npfloat :=
  match r with
  | Fin v => Fin (f v)
  | PosInf => Fin fill
  | NegInf => Fin fill
  | NaN => NaN
  end.

(** ** draw_transit *)

Section DrawTransit.

(** [ImageDraw.ellipse([(x0, y0), (x1, y1)], outline=1, fill=1)] on a blank
    image: [ellipse x0 y0 x1 y1 x y] tells whether pixel [(x, y)] is set.
    The rasteriser belongs to the imaging library; the development is
    parametric in it. *)
Variable ellipse : R -> R -> R -> R -> Z -> Z -> bool.

(** The value read back from a pixel of the one-bit image. *)
Definition pixel_value (b : bool) : R := if b then 1 else 0.

(** [list(image.getdata())]: the pixels, row after row. *)
Definition getdata (grid_size : Z) (x0 y0 x1 y1 : R) : list R :=
  flat_map
    (fun y => map (fun x => pixel_value (ellipse x0 y0 x1 y1 x y))
                  (linspace_int grid_size))
    (linspace_int grid_size).

(** The inner function [_draw_disk].  [Image.new] refuses a negative size,
    and [draw.ellipse] refuses a box whose second corner lies left of or
    above the first, both with [ValueError]. *)
Definition _draw_disk (grid_size : Z) (center : R * R) (radius value : R)
  : result array2 :=
  let top_left := (fst center - radius, snd center - radius) in
  let bottom_right := (fst center + radius, snd center + radius) in
  if (grid_size <? 0)%Z then Raise ValueError
  else if Rlt_dec (fst bottom_right) (fst top_left) then Raise ValueError
  else if Rlt_dec (snd bottom_right) (snd top_left) then Raise ValueError
  else
    let n := Z.to_nat grid_size in
    Ok (amap (fun v => v * value)
          (reshape n n
             (getdata grid_size (fst top_left) (snd top_left)
                (fst bottom_right) (snd bottom_right)))).

(** The planet's centre pixel. *)
Definition x_p (grid_size : Z) (phase : R) : Z :=
  (grid_size / 2 + py_int (phase * IZR grid_size))%Z.

Definition y_p (grid_size : Z) (impact_parameter : R) : Z :=
  (grid_size / 2
   + py_int (py_floordiv (impact_parameter * IZR grid_size) 2))%Z.

(** [np.array([x_s - x_p, y_s - y_p]).T], for the coordinate arrays
    [x_s, y_s = np.meshgrid(one_d_coords, one_d_coords)]. *)
Definition planet_centric_coords (grid_size xp yp : Z)
  : list (list (list Z)) :=
  let n := Z.to_nat grid_size in
  let one_d_coords := linspace_int grid_size in
  let (x_s, y_s) := meshgrid one_d_coords one_d_coords in
  transpose3 2 n n
    [map (map (fun v => v - xp)%Z) x_s; map (map (fun v => v - yp)%Z) y_s].

(** The matrix of distances from the planet's centre, in physical units:
    [(np.sum(planet_centric_coords ** 2, axis=-1) ** 0.5).T * px_size]. *)
Definition r_p (grid_size xp yp : Z) (px_size : R) : array2 :=
  let n := Z.to_nat grid_size in
  amap (fun v => v * px_size)
    (transpose2 n n
       (norm_last_axis (planet_centric_coords grid_size xp yp))).

(** Its entry [r_p[y][x]] in closed form: the distance of pixel [(x, y)]
    from [(xp, yp)], times the pixel size. *)
Definition r_p_entry (xp yp : Z) (px_size : R) (x y : Z) : R :=
  sqrt (IZR ((x - xp) ^ 2 + (y - yp) ^ 2)) * px_size.

(** [2 * np.sum(np.array([density_profile, density_profile]), axis=0)]. *)
Definition column_density (density_profile : array1) : array1 :=
  map (fun v => 2 * v) (np_sum_axis0 [density_profile; density_profile]).

(** [draw_transit], statement by statement.  [None / float] raises
    [TypeError] and a float division by zero raises [ZeroDivisionError];
    the division of the arrays by [norm] is NumPy's and raises nothing. *)
Definition draw_transit (planet_to_star_ratio impact_parameter phase : R)
  (grid_size : Z) (density_profile profile_radius : option array1)
  (planet_physical_radius : option R) : result (array2 * array2) :=
  let star_radius := (grid_size / 2)%Z in
  let planet_radius := IZR star_radius * planet_to_star_ratio in
  star <- _draw_disk grid_size (IZR star_radius, IZR star_radius)
            (IZR star_radius) 1 ;;
  let norm := np_sum star in
  let grid := amap (fun v => v / norm) star in
  let xp := x_p grid_size phase in
  let yp := y_p grid_size impact_parameter in
  density_map <-
    match density_profile with
    | Some dp =>
        px_size <-
          match planet_physical_radius with
          | None => Raise TypeError
          | Some ppr =>
              if Req_dec_T planet_radius 0 then Raise ZeroDivisionError
              else Ok (ppr / planet_radius)
          end ;;
        f <- interp1d profile_radius (column_density dp) 0 ;;
        Ok (amap f (r_p grid_size xp yp px_size))
    | None => Ok (zeros_like grid)
    end ;;
  planet <- _draw_disk grid_size (IZR xp, IZR yp) planet_radius 1 ;;
  let grid := amap2 Rminus grid (amap (fun v => v / norm) planet) in
  let normalized_flux_map := clip_min 0 grid in
  Ok (normalized_flux_map, density_map).

(** The coordinates and the radius map as 64-bit integers: the
    differences, the squares and their sum wrap around.  The planet's
    centre, a Python integer, is taken to fit 64 bits itself, as
    [offsets_fit_int64] requires where it matters. *)
Definition planet_centric_coords_int64 (grid_size xp yp : Z)
  : list (list (list Z)) :=
  let n := Z.to_nat grid_size in
  let one_d_coords := linspace_int grid_size in
  let (x_s, y_s) := meshgrid one_d_coords one_d_coords in
  transpose3 2 n n
    [map (map (fun v => wrap_int64 (v - xp))) x_s;
     map (map (fun v => wrap_int64 (v - yp))) y_s].

Definition r_p_np (grid_size xp yp : Z) (px_size : R) : nparray2 :=
  let n := Z.to_nat grid_size in
  map (map (fun v => np_multiply v px_size))
    (transpose2_np n n
       (norm_last_axis_int64 (planet_centric_coords_int64 grid_size xp yp))).

(** [draw_transit] once more, statement by statement, with the special
    values of the divisions by [norm] and with the 64-bit integers of the
    radius map. *)
Definition draw_transit_np (planet_to_star_ratio impact_parameter phase : R)
  (grid_size : Z) (density_profile profile_radius : option array1)
  (planet_physical_radius : option R) : result (nparray2 * nparray2) :=
  let star_radius := (grid_size / 2)%Z in
  let planet_radius := IZR star_radius * planet_to_star_ratio in
  star <- _draw_disk grid_size (IZR star_radius, IZR star_radius)
            (IZR star_radius) 1 ;;
  let norm := np_sum star in
  let grid := map (map (fun v => np_true_divide v norm)) star in
  let xp := x_p grid_size phase in
  let yp := y_p grid_size impact_parameter in
  density_map <-
    match density_profile with
    | Some dp =>
        px_size <-
          match planet_physical_radius with
          | None => Raise TypeError
          | Some ppr =>
              if Req_dec_T planet_radius 0 then Raise ZeroDivisionError
              else Ok (ppr / planet_radius)
          end ;;
        f <- interp1d profile_radius (column_density dp) 0 ;;
        Ok (map (map (np_interp_call f 0)) (r_p_np grid_size xp yp px_size))
    | None => Ok (map (map (fun _ => Fin 0)) grid)
    end ;;
  planet <- _draw_disk grid_size (IZR xp, IZR yp) planet_radius 1 ;;
  let grid :=
    map2 (map2 np_subtract) grid
      (map (map (fun v => np_true_divide v norm)) planet) in
  let normalized_flux_map := map (map (np_clip_min 0)) grid in
  Ok (normalized_flux_map, density_map).

(** *** Notions used to state the properties of [draw_transit] *)

(** The mask of the disk that [_draw_disk center radius] rasterises. *)
Definition disk_mask (center : R * R) (radius : R) (x y : Z) : bool :=
  ellipse (fst center - radius) (snd center - radius)
          (fst center + radius) (snd center + radius) x y.

Definition star_mask (grid_size : Z) (x y : Z) : bool :=
  disk_mask (IZR (grid_size / 2), IZR (grid_size / 2))
    (IZR (grid_size / 2)) x y.

Definition planet_mask (planet_to_star_ratio impact_parameter phase : R)
  (grid_size : Z) (x y : Z) : bool :=
  disk_mask (IZR (x_p grid_size phase), IZR (y_p grid_size impact_parameter))
    (IZR (grid_size / 2) * planet_to_star_ratio) x y.

Definition in_grid (grid_size x y : Z) : Prop :=
  (0 <= x < grid_size)%Z /\ (0 <= y < grid_size)%Z.


(** The star disk covers at least one pixel of the grid. *)
Definition star_nonempty (grid_size : Z) : Prop :=
  exists x y, in_grid grid_size x y /\ star_mask grid_size x y = true.

(** The normalisation factor and one entry of the flux map, in closed
    form. *)
Definition star_norm (grid_size : Z) : R :=
  np_sum (tabulate grid_size
            (fun x y => pixel_value (star_mask grid_size x y) * 1)).

Definition flux_entry (planet_to_star_ratio impact_parameter phase : R)
  (grid_size : Z) (x y : Z) : R :=
  Rmax (pixel_value (star_mask grid_size x y) * 1 / star_norm grid_size
        - pixel_value
            (planet_mask planet_to_star_ratio impact_parameter phase
               grid_size x y) * 1 / star_norm grid_size) 0.

(** The same entry with the special values of the divisions. *)
Definition flux_entry_np (planet_to_star_ratio impact_parameter phase : R)
  (grid_size : Z) (x y : Z) : npfloat :=
  np_clip_min 0
    (np_subtract
       (np_true_divide (pixel_value (star_mask grid_size x y) * 1)
          (star_norm grid_size))
       (np_true_divide
          (pixel_value
             (planet_mask planet_to_star_ratio impact_parameter phase
                grid_size x y) * 1)
          (star_norm grid_size))).

End DrawTransit.

(** The planet's centre and the squared distance of pixel [(x, y)] from it
    fit the 64-bit integers: the offsets, their squares and the sum of the
    squares are then the exact ones. *)
Definition offsets_fit_int64 (grid_size : Z) (phase impact_parameter : R)
  (x y : Z) : Prop :=
  (Z.abs (x_p grid_size phase) <= int64_max)%Z
  /\ (Z.abs (y_p grid_size impact_parameter) <= int64_max)%Z
  /\ ((x - x_p grid_size phase) ^ 2 + (y - y_p grid_size impact_parameter) ^ 2
      <= int64_max)%Z.

(** Entry [r_p[y][x]] of the radius map of 64-bit integers, in closed
    form. *)
Definition r_p_entry_np (xp yp : Z) (px_size : R) (x y : Z) : npfloat :=
  np_multiply
    (np_sqrt_int
       (wrap_int64
          (wrap_int64 (wrap_int64 (x - xp) ^ 2)
           + wrap_int64 (wrap_int64 (wrap_int64 (y - yp) ^ 2) + 0))))
    px_size.

(** The planet-centric physical radius of pixel [(x, y)]. *)
Definition physical_radius (planet_to_star_ratio impact_parameter phase : R)
  (grid_size : Z) (planet_physical_radius : R) (x y : Z) : R :=
  r_p_entry (x_p grid_size phase) (y_p grid_size impact_parameter)
    (planet_physical_radius / (IZR (grid_size / 2) * planet_to_star_ratio))
    x y.

(** [min(a)] and [max(a)] of a one-dimensional array. *)
Definition array_min (l : array1) : R :=
  match l with
  | [] => 0
  | a :: t => fold_right Rmin a t
  end.

Definition array_max (l : array1) : R :=
  match l with
  | [] => 0
  | a :: t => fold_right Rmax a t
  end.

(** Pixel [(x, y)] lies outside the supplied profile: no profile was given,
    or its physical radius is outside the range of [profile_radius]. *)
Definition outside_profile (planet_to_star_ratio impact_parameter phase : R)
  (grid_size : Z) (density_profile profile_radius : option array1)
  (planet_physical_radius : option R) (x y : Z) : Prop :=
  match density_profile, profile_radius, planet_physical_radius with
  | None, _, _ => True
  | Some _, Some prs, Some ppr =>
      let r := physical_radius planet_to_star_ratio impact_parameter phase
                 grid_size ppr x y in
      r < array_min prs \/ array_max prs < r
  | _, _, _ => False
  end.

Definition all_entries (P : R -> Prop) (a : array2) : Prop :=
  Forall (Forall P) a.

(** One entry of the density map of [draw_transit_np], in closed form. *)
Definition density_entry_np (planet_to_star_ratio impact_parameter phase : R)
  (grid_size : Z) (density_profile profile_radius : option array1)
  (planet_physical_radius : option R) (x y : Z) : npfloat :=
  match density_profile, profile_radius, planet_physical_radius with
  | Some dp, Some prs, Some ppr =>
      np_interp_call
        (interp_eval 0 (sort_samples (combine prs (column_density dp)))) 0
        (r_p_entry_np (x_p grid_size phase) (y_p grid_size impact_parameter)
           (ppr / (IZR (grid_size / 2) * planet_to_star_ratio)) x y)
  | _, _, _ => Fin 0
  end.

Definition sorted_by_x (l : list (R * R)) : Prop :=
  StronglySorted (fun p q => fst p <= fst q) l.

(** The specification's linear interpolant, written from its words: [v] is
    the value at [r] of the piecewise-linear function through the samples.
    Either [r] is the abscissa of a sample whose ordinate is [v], or [r]
    lies strictly between two samples with no sample between them and [v]
    lies on the segment that joins them. *)
Definition linear_interpolant (samples : list (R * R)) (r v : R) : Prop :=
  In (r, v) samples
  \/ exists x0 y0 x1 y1,
       In (x0, y0) samples /\ In (x1, y1) samples /\ x0 < r < x1
       /\ (forall q, In q samples -> ~ (x0 < fst q < x1))
       /\ v = y0 + (y1 - y0) / (x1 - x0) * (r - x0).

(** Modelled from the spec: the imaging library's ellipse rasteriser is not
    part of the sources; section 9 of the specification gives the pixel
    selection as the inclusive mask [(x-cx)^2 + (y-cy)^2 <= r^2], and
    section 4.1 lets a radius of zero or less rasterise to an empty disk.
    It instantiates the rasteriser at concrete inputs. *)
Definition ellipse_geom (x0 y0 x1 y1 : R) (x y : Z) : bool :=
  let cx := (x0 + x1) / 2 in
  let cy := (y0 + y1) / 2 in
  let radius := (x1 - x0) / 2 in
  if Rlt_dec 0 radius
  then if Rle_dec ((IZR x - cx) ^ 2 + (IZR y - cy) ^ 2) (radius ^ 2)
       then true else false
  else false.

(** ** transmission *)

(** A NumPy operand that is either a scalar or a one-dimensional array;
    ufuncs and arithmetic act entrywise on it. *)
Inductive ndvalue : Type :=
| Scalar (v : R)
| Array (a : array1).

Inductive ndshape : Type :=
| ScalarShape
| ArrayShape (n : nat).

Definition shape (v : ndvalue) : ndshape :=
  match v with
  | Scalar _ => ScalarShape
  | Array a => ArrayShape (length a)
  end.

Definition vmap (f : R -> R) (v : ndvalue) : ndvalue :=
  match v with
  | Scalar x => Scalar (f x)
  | Array a => Array (map f a)
  end.

(** [np.diff] of a one-dimensional array. *)
Fixpoint np_diff (a : array1) : array1 :=
  match a with
  | u :: t => match t with
              | [] => []
              | v :: _ => (v - u) :: np_diff t
              end
  | [] => []
  end.

Definition c_speed : R := 2.99792458e+08.
Definition k_b : R := 1.380649e-23.

(** The Lorentzian width in wavelength space, as [transmission] computes
    it from the Einstein coefficient and the reference wavelength. *)
Definition gamma_lambda (einstein_coeff reference_wavelength : R) : R :=
  let w0 := reference_wavelength in
  let nu0 := c_speed / w0 in
  let gamma_nu := einstein_coeff / 4 / PI in
  let nuk := map (fun v => v + nu0) [- gamma_nu / 2; gamma_nu / 2] in
  let wk := map (fun v => c_speed / v) nuk in
  nth 0 (np_diff (map (fun v => w0 - v) wk)) 0.

(** The Doppler width in wavelength space; [x ** 0.5] is the square root
    on the arguments that are not negative. *)
Definition alpha_lambda (cell_temperature reference_wavelength
  particle_mass : R) : R :=
  let w0 := reference_wavelength in
  let temp := cell_temperature in
  let mass := particle_mass in
  let v_turb := sqrt (5 * k_b * temp / 3 / mass) in
  let u_th := sqrt (2 * k_b * temp / mass + v_turb ^ 2) in
  w0 / c_speed * u_th.

Section Transmission.

(** [scipy.special.voigt_profile(x, sigma, gamma)] at one point. *)
Variable voigt_profile : R -> R -> R -> R.

(** [tools.cross_section(f, w0, alpha, phi)], a helper of the package whose
    source is outside this module. *)
Variable cross_section : R -> R -> R -> ndvalue -> ndvalue.

(** [transmission]; the subtraction of [w0] and the Voigt profile act on
    each wavelength of the grid. *)
Definition transmission (cell_density cell_temperature oscillator_strength
  einstein_coeff : R) (wavelength_grid : ndvalue) (reference_wavelength
  particle_mass : R) : ndvalue :=
  let w0 := reference_wavelength in
  let wl_grid := wavelength_grid in
  let alpha := alpha_lambda cell_temperature w0 particle_mass in
  let gamma := gamma_lambda einstein_coeff w0 in
  let phi := vmap (fun w => voigt_profile (w - w0) alpha gamma) wl_grid in
  let sigma := cross_section oscillator_strength w0 alpha phi in
  let absorption := vmap (fun s => s * cell_density) sigma in
  absorption.

End Transmission.

(** ** Arrays as heap objects

    NumPy arrays are mutable objects that a caller shares with the callee.
    To state what the two operations do to their inputs, the same code is
    read once more over a heap of array objects.  A location is an index
    in the heap; a new object goes to the end.  Only the arrays bound to a
    name or returned are recorded; temporaries of one expression are
    not. *)

Inductive ndarray : Type :=
| Arr1 (a : array1)
| Arr2 (a : array2).

Definition loc : Type := nat.
Definition heap : Type := list ndarray.

Definition M (A : Type) : Type := heap -> result (A * heap).

Definition ret {A : Type} (a : A) : M A := fun h => Ok (a, h).

Definition mbind {A B : Type} (m : M A) (k : A -> M B) : M B :=
  fun h => match m h with
           | Ok (a, h') => k a h'
           | Raise e => Raise e
           end.

Notation "x <-- m ;; k" := (mbind m (fun x => k))
  (at level 61, m at next level, right associativity).

Definition lift {A : Type} (r : result A) : M A :=
  fun h => match r with
           | Ok a => Ok (a, h)
           | Raise e => Raise e
           end.

Definition new (o : ndarray) : M loc := fun h => Ok (length h, h ++ [o]).

Definition read1 (l : loc) : M array1 :=
  fun h => match nth_error h l with
           | Some (Arr1 a) => Ok (a, h)
           | _ => Raise TypeError
           end.

Definition read2 (l : loc) : M array2 :=
  fun h => match nth_error h l with
           | Some (Arr2 a) => Ok (a, h)
           | _ => Raise TypeError
           end.

Fixpoint update (h : heap) (l : loc) (o : ndarray) : heap :=
  match h, l with
  | [], _ => []
  | _ :: t, O => o :: t
  | x :: t, S l' => x :: update t l' o
  end.

Definition write (l : loc) (o : ndarray) : M unit :=
  fun h => Ok (tt, update h l o).

(** The optional array argument [l] holds the array [a] in heap [h]. *)
Definition points_to (h : heap) (l : option loc) (a : option array1) : Prop :=
  match l, a with
  | None, None => True
  | Some l, Some a => nth_error h l = Some (Arr1 a)
  | _, _ => False
  end.

(** Every object of [h] is still there, with the same contents, in [h']. *)
Definition unchanged (h h' : heap) : Prop :=
  forall l, (l < length h)%nat -> nth_error h' l = nth_error h l.

(** Location [l] holds no object of [h]. *)
Definition fresh (h : heap) (l : loc) : Prop := (length h <= l)%nat.

Section DrawTransitHeap.
Variable ellipse : R -> R -> R -> R -> Z -> Z -> bool.

(** [_draw_disk] returns a new array. *)
Definition _draw_disk_heap (grid_size : Z) (center : R * R)
  (radius value : R) : M loc :=
  disk <-- lift (_draw_disk ellipse grid_size center radius value) ;;
  new (Arr2 disk).

(** [interp1d] copies its samples ([copy=True]): the interpolating function
    keeps no reference to the arrays it was built from. *)
Definition interp1d_heap (x : option loc) (y : loc) (fill : R)
  : M (R -> R) :=
  xv <-- match x with
         | None => ret None
         | Some xl => a <-- read1 xl ;; ret (Some a)
         end ;;
  yv <-- read1 y ;;
  lift (interp1d xv yv fill).

Definition draw_transit_heap (planet_to_star_ratio impact_parameter phase : R)
  (grid_size : Z) (density_profile profile_radius : option loc)
  (planet_physical_radius : option R) : M (loc * loc) :=
  let star_radius := (grid_size / 2)%Z in
  let planet_radius := IZR star_radius * planet_to_star_ratio in
  star <-- _draw_disk_heap grid_size (IZR star_radius, IZR star_radius)
             (IZR star_radius) 1 ;;
  star_v <-- read2 star ;;
  let norm := np_sum star_v in
  grid <-- new (Arr2 (amap (fun v => v / norm) star_v)) ;;
  let xp := x_p grid_size phase in
  let yp := y_p grid_size impact_parameter in
  density_map <--
    match density_profile with
    | Some dpl =>
        px_size <-- lift
          match planet_physical_radius with
          | None => Raise TypeError
          | Some ppr =>
              if Req_dec_T planet_radius 0 then Raise ZeroDivisionError
              else Ok (ppr / planet_radius)
          end ;;
        rp <-- new (Arr2 (r_p grid_size xp yp px_size)) ;;
        dp <-- read1 dpl ;;
        column <-- new (Arr1 (column_density dp)) ;;
        f <-- interp1d_heap profile_radius column 0 ;;
        rp_v <-- read2 rp ;;
        new (Arr2 (amap f rp_v))
    | None =>
        grid_v <-- read2 grid ;;
        new (Arr2 (zeros_like grid_v))
    end ;;
  planet <-- _draw_disk_heap grid_size (IZR xp, IZR yp) planet_radius 1 ;;
  planet_v <-- read2 planet ;;
  scaled <-- new (Arr2 (amap (fun v => v / norm) planet_v)) ;;
  (* [grid -= planet / norm] updates [grid] in place. *)
  grid_v <-- read2 grid ;;
  scaled_v <-- read2 scaled ;;
  _ <-- write grid (Arr2 (amap2 Rminus grid_v scaled_v)) ;;
  grid_v <-- read2 grid ;;
  normalized_flux_map <-- new (Arr2 (clip_min 0 grid_v)) ;;
  ret (normalized_flux_map, density_map).

End DrawTransitHeap.

(** A Python value passed to [transmission]: a float, or a reference to a
    one-dimensional array. *)
Inductive pyval : Type :=
| PyFloat (v : R)
| PyArray (l : loc).

(** Reading an operand, and returning a result as a new object. *)
Definition load (v : pyval) : M ndvalue :=
  match v with
  | PyFloat x => ret (Scalar x)
  | PyArray l => a <-- read1 l ;; ret (Array a)
  end.

Definition store (v : ndvalue) : M pyval :=
  match v with
  | Scalar x => ret (PyFloat x)
  | Array a => l <-- new (Arr1 a) ;; ret (PyArray l)
  end.

(** An entrywise operation: its result is a new object. *)
Definition ufunc (f : R -> R) (v : pyval) : M pyval :=
  x <-- load v ;; store (vmap f x).

Section TransmissionHeap.
Variable voigt_profile : R -> R -> R -> R.
Variable cross_section : R -> R -> R -> ndvalue -> ndvalue.

(** [wl_grid = wavelength_grid] binds a second name to the caller's
    object; [tools.cross_section] is read as a function of its operands
    that returns a new object. *)
Definition transmission_heap (cell_density cell_temperature
  oscillator_strength einstein_coeff : R) (wavelength_grid : pyval)
  (reference_wavelength particle_mass : R) : M pyval :=
  let w0 := reference_wavelength in
  let wl_grid := wavelength_grid in
  let alpha := alpha_lambda cell_temperature w0 particle_mass in
  let gamma := gamma_lambda einstein_coeff w0 in
  shifted <-- ufunc (fun w => w - w0) wl_grid ;;
  phi <-- ufunc (fun x => voigt_profile x alpha gamma) shifted ;;
  phi_v <-- load phi ;;
  sigma <-- store (cross_section oscillator_strength w0 alpha phi_v) ;;
  absorption <-- ufunc (fun s => s * cell_density) sigma ;;
  ret absorption.

End TransmissionHeap.

(** The Python value [v] stands for the operand [x] in heap [h]. *)
Definition denotes (h : heap) (v : pyval) (x : ndvalue) : Prop :=
  match v, x with
  | PyFloat a, Scalar b => a = b
  | PyArray l, Array a => nth_error h l = Some (Arr1 a)
  | _, _ => False
  end.

Definition fresh_val (h : heap) (v : pyval) : Prop :=
  match v with
  | PyFloat _ => True
  | PyArray l => fresh h l
  end.

(** ** Quantities the further properties speak of *)

(** The number of star pixels that the planet covers. *)
Definition covered_count (ellipse : R -> R -> R -> R -> Z -> Z -> bool)
  (planet_to_star_ratio impact_parameter phase : R) (grid_size : Z) : R :=
  np_sum (tabulate grid_size
            (fun x y =>
               pixel_value
                 (andb (star_mask ellipse grid_size x y)
                    (planet_mask ellipse planet_to_star_ratio
                       impact_parameter phase grid_size x y)))).

(** Scaling the ordinates, or the abscissas, of the samples. *)
Definition scale_y (k : R) (p : R * R) : R * R := (fst p, k * snd p).
Definition scale_x (k : R) (p : R * R) : R * R := (k * fst p, snd p).

(** * Properties *)

(** ** Lists and arrays *)

Lemma linspace_int_length n : length (linspace_int n) = Z.to_nat n.
Proof. unfold linspace_int. now rewrite length_map, length_seq. Qed.

Lemma nth_map_lt {A B} (f : A -> B) (l : list A) (i : nat) (d : B) (d' : A) :
  (i < length l)%nat -> nth i (map f l) d = f (nth i l d').
Proof.
  revert i. induction l as [|a l IH]; intros [|i] H; simpl in *; try lia.
  - reflexivity.
  - apply IH. lia.
Qed.

Lemma nth_map_seq {A} (f : nat -> A) n i d :
  (i < n)%nat -> nth i (map f (seq 0 n)) d = f i.
Proof.
  intros H. rewrite (nth_map_lt _ _ _ _ 0%nat) by (now rewrite length_seq).
  now rewrite seq_nth.
Qed.

Lemma nth_linspace_nat n i :
  (i < Z.to_nat n)%nat -> nth i (linspace_int n) 0%Z = Z.of_nat i.
Proof. intros H. unfold linspace_int. now rewrite nth_map_seq. Qed.

Lemma nth_linspace_int n k :
  (0 <= k < n)%Z -> nth (Z.to_nat k) (linspace_int n) 0%Z = k.
Proof. intros H. rewrite nth_linspace_nat by lia. lia. Qed.

Lemma In_linspace_int n k : In k (linspace_int n) <-> (0 <= k < n)%Z.
Proof.
  unfold linspace_int. rewrite in_map_iff. split.
  - intros (i & <- & Hi). apply in_seq in Hi. lia.
  - intros H. exists (Z.to_nat k). split; [lia|]. apply in_seq. lia.
Qed.

Lemma firstn_skipn_app_exact {A} (l1 l2 : list A) (m : nat) :
  length l1 = m -> firstn m (l1 ++ l2) = l1 /\ skipn m (l1 ++ l2) = l2.
Proof.
  intros <-. split.
  - rewrite firstn_app, Nat.sub_diag, firstn_all. simpl. apply app_nil_r.
  - rewrite skipn_app, Nat.sub_diag, skipn_all. reflexivity.
Qed.

(** Reshaping the rows laid end to end gives the rows back. *)
Lemma reshape_flat_map {A} (f : A -> list R) (l : list A) (m : nat) :
  (forall a, length (f a) = m) ->
  reshape (length l) m (flat_map f l) = map f l.
Proof.
  intros Hf. induction l as [|a l IH]; simpl; [reflexivity|].
  destruct (firstn_skipn_app_exact (f a) (flat_map f l) m (Hf a)) as [-> ->].
  now rewrite IH.
Qed.

Lemma entry_tabulate n f x y :
  (0 <= x < n)%Z -> (0 <= y < n)%Z -> entry (tabulate n f) x y = f x y.
Proof.
  intros Hx Hy. unfold entry, tabulate.
  rewrite (nth_map_lt _ _ _ _ 0%Z) by (rewrite linspace_int_length; lia).
  rewrite (nth_map_lt _ _ _ _ 0%Z) by (rewrite linspace_int_length; lia).
  now rewrite !nth_linspace_int.
Qed.

Lemma amap_tabulate n f g :
  amap f (tabulate n g) = tabulate n (fun x y => f (g x y)).
Proof.
  unfold amap, tabulate. rewrite map_map. apply map_ext. intros y.
  now rewrite map_map.
Qed.

Lemma map2_map {A B C D} (f : B -> C -> D) (g : A -> B) (h : A -> C) l :
  map2 f (map g l) (map h l) = map (fun a => f (g a) (h a)) l.
Proof. induction l; simpl; congruence. Qed.

Lemma amap2_tabulate n f g h :
  amap2 f (tabulate n g) (tabulate n h)
  = tabulate n (fun x y => f (g x y) (h x y)).
Proof.
  unfold amap2, tabulate. rewrite map2_map. apply map_ext. intros y.
  now rewrite map2_map.
Qed.

Lemma tabulate_ext n f g :
  (forall x y, f x y = g x y) -> tabulate n f = tabulate n g.
Proof.
  intros H. unfold tabulate. apply map_ext. intros y. apply map_ext.
  intros x. apply H.
Qed.

(** The coordinates of pixel [(c, r)], in the layout of the source. *)
Lemma planet_centric_coords_entry gs xp yp r c :
  (r < Z.to_nat gs)%nat -> (c < Z.to_nat gs)%nat ->
  nth r (nth c (planet_centric_coords gs xp yp) []) []
  = [(Z.of_nat c - xp)%Z; (Z.of_nat r - yp)%Z].
Proof.
  intros Hr Hc. unfold planet_centric_coords, meshgrid, transpose3.
  rewrite nth_map_seq by assumption. rewrite nth_map_seq by assumption.
  cbn [seq map nth]. rewrite !map_map.
  rewrite !(nth_map_lt _ (linspace_int gs) r [] 0%Z)
    by (rewrite linspace_int_length; lia).
  rewrite !map_map.
  rewrite !(nth_map_lt _ (linspace_int gs) c 0%Z 0%Z)
    by (rewrite linspace_int_length; lia).
  now rewrite !nth_linspace_nat by lia.
Qed.

(** The two transpositions of the source cancel: row [y], column [x] of
    [r_p] holds the distance of pixel [(x, y)]. *)
Lemma r_p_tabulate gs xp yp px :
  r_p gs xp yp px = tabulate gs (r_p_entry xp yp px).
Proof.
  unfold r_p, tabulate, amap, transpose2, linspace_int.
  rewrite !map_map. apply map_ext_in. intros r Hr. apply in_seq in Hr.
  rewrite !map_map. apply map_ext_in. intros c Hc. apply in_seq in Hc.
  unfold r_p_entry. f_equal. unfold norm_last_axis.
  assert (Hlen : length (planet_centric_coords gs xp yp) = Z.to_nat gs).
  { unfold planet_centric_coords, meshgrid, transpose3.
    now rewrite length_map, length_seq. }
  assert (Hrow : length (nth c (planet_centric_coords gs xp yp) [])
                 = Z.to_nat gs).
  { unfold planet_centric_coords, meshgrid, transpose3.
    rewrite nth_map_seq by lia. now rewrite length_map, length_seq. }
  rewrite (nth_map_lt _ _ _ _ []) by lia.
  rewrite (nth_map_lt _ _ _ _ []) by lia.
  rewrite planet_centric_coords_entry by lia.
  cbn [map fold_right]. do 2 f_equal. lia.
Qed.

(** The same for the radius map of 64-bit integers. *)
Lemma planet_centric_coords_int64_entry gs xp yp r c :
  (r < Z.to_nat gs)%nat -> (c < Z.to_nat gs)%nat ->
  nth r (nth c (planet_centric_coords_int64 gs xp yp) []) []
  = [wrap_int64 (Z.of_nat c - xp); wrap_int64 (Z.of_nat r - yp)].
Proof.
  intros Hr Hc. unfold planet_centric_coords_int64, meshgrid, transpose3.
  rewrite nth_map_seq by assumption. rewrite nth_map_seq by assumption.
  cbn [seq map nth]. rewrite !map_map.
  rewrite !(nth_map_lt _ (linspace_int gs) r [] 0%Z)
    by (rewrite linspace_int_length; lia).
  rewrite !map_map.
  rewrite !(nth_map_lt _ (linspace_int gs) c 0%Z 0%Z)
    by (rewrite linspace_int_length; lia).
  now rewrite !nth_linspace_nat by lia.
Qed.

Lemma r_p_np_tabulate gs xp yp px :
  r_p_np gs xp yp px = gtabulate gs (r_p_entry_np xp yp px).
Proof.
  unfold r_p_np, gtabulate, transpose2_np, linspace_int.
  rewrite !map_map. apply map_ext_in. intros r Hr. apply in_seq in Hr.
  rewrite !map_map. apply map_ext_in. intros c Hc. apply in_seq in Hc.
  unfold r_p_entry_np. f_equal. unfold norm_last_axis_int64.
  assert (Hlen : length (planet_centric_coords_int64 gs xp yp) = Z.to_nat gs).
  { unfold planet_centric_coords_int64, meshgrid, transpose3.
    now rewrite length_map, length_seq. }
  assert (Hrow : length (nth c (planet_centric_coords_int64 gs xp yp) [])
                 = Z.to_nat gs).
  { unfold planet_centric_coords_int64, meshgrid, transpose3.
    rewrite nth_map_seq by lia. now rewrite length_map, length_seq. }
  rewrite (nth_map_lt _ _ _ _ []) by lia.
  rewrite (nth_map_lt _ _ _ _ []) by lia.
  rewrite planet_centric_coords_int64_entry by lia.
  reflexivity.
Qed.

(** Within the 64-bit range nothing wraps around. *)
Lemma wrap_int64_exact z :
  (- 2 ^ 63 <= z <= int64_max)%Z -> wrap_int64 z = z.
Proof.
  unfold wrap_int64, int64_max. intros H.
  rewrite Z.mod_small by lia. lia.
Qed.

Lemma r_p_entry_np_exact xp yp px x y :
  ((x - xp) ^ 2 + (y - yp) ^ 2 <= int64_max)%Z ->
  r_p_entry_np xp yp px x y = Fin (r_p_entry xp yp px x y).
Proof.
  intros H. unfold r_p_entry_np, r_p_entry.
  assert (H63 : (int64_max = 9223372036854775807)%Z) by reflexivity.
  assert (Hm : (- 2 ^ 63 = -9223372036854775808)%Z) by reflexivity.
  assert (Hx : (0 <= (x - xp) ^ 2)%Z) by nia.
  assert (Hy : (0 <= (y - yp) ^ 2)%Z) by nia.
  assert (Hax : (- 2 ^ 63 <= x - xp <= int64_max)%Z) by nia.
  assert (Hay : (- 2 ^ 63 <= y - yp <= int64_max)%Z) by nia.
  rewrite (wrap_int64_exact (x - xp)) by assumption.
  rewrite (wrap_int64_exact (y - yp)) by assumption.
  rewrite (wrap_int64_exact ((x - xp) ^ 2)) by lia.
  rewrite (wrap_int64_exact ((y - yp) ^ 2)) by lia.
  rewrite Z.add_0_r.
  rewrite (wrap_int64_exact ((y - yp) ^ 2)) by lia.
  rewrite (wrap_int64_exact ((x - xp) ^ 2 + (y - yp) ^ 2)) by lia.
  unfold np_sqrt_int.
  destruct (Z.ltb_spec ((x - xp) ^ 2 + (y - yp) ^ 2) 0); [lia|].
  reflexivity.
Qed.

Lemma entry_at_gtabulate {A} n (f : Z -> Z -> A) x y :
  in_grid n x y -> entry_at (gtabulate n f) x y = Some (f x y).
Proof.
  intros [Hx Hy]. unfold entry_at, gtabulate.
  rewrite nth_error_map.
  rewrite (nth_error_nth' _ 0%Z) by (rewrite linspace_int_length; lia).
  cbn [option_map]. rewrite nth_error_map.
  rewrite (nth_error_nth' _ 0%Z) by (rewrite linspace_int_length; lia).
  cbn [option_map]. now rewrite !nth_linspace_int.
Qed.


Lemma has_shape_tabulate n f :
  has_shape (Z.to_nat n) (Z.to_nat n) (tabulate n f).
Proof.
  unfold has_shape, tabulate. split.
  - now rewrite length_map, linspace_int_length.
  - apply Forall_forall. intros row Hr. apply in_map_iff in Hr.
    destruct Hr as (y & <- & _). now rewrite length_map, linspace_int_length.
Qed.

Lemma all_entries_tabulate_intro (P : R -> Prop) n f :
  (forall x y, P (f x y)) -> all_entries P (tabulate n f).
Proof.
  intros H. unfold all_entries, tabulate. apply Forall_forall. intros row Hr.
  apply in_map_iff in Hr. destruct Hr as (y & <- & _).
  apply Forall_forall. intros v Hv. apply in_map_iff in Hv.
  destruct Hv as (x & <- & _). apply H.
Qed.

Lemma all_entries_tabulate (P : R -> Prop) n f x y :
  all_entries P (tabulate n f) -> (0 <= x < n)%Z -> (0 <= y < n)%Z ->
  P (f x y).
Proof.
  unfold all_entries, tabulate. intros H Hx Hy.
  rewrite Forall_forall in H.
  specialize (H (map (fun x => f x y) (linspace_int n))).
  rewrite Forall_forall in H. apply H.
  - apply in_map_iff. exists y. split; [reflexivity|now apply In_linspace_int].
  - apply in_map_iff. exists x. split; [reflexivity|now apply In_linspace_int].
Qed.

(** ** Sums *)

Lemma sum_map_le {A} (f g : A -> R) (l : list A) :
  (forall a, In a l -> f a <= g a) ->
  np_sum1 (map f l) <= np_sum1 (map g l).
Proof.
  induction l as [|a l IH]; intros H; simpl; [lra|].
  pose proof (H a (or_introl eq_refl)).
  assert (np_sum1 (map f l) <= np_sum1 (map g l))
    by (apply IH; intros; apply H; now right).
  lra.
Qed.

(** Two sums of pointwise ordered terms agree only if the terms do. *)
Lemma sum_map_eq_iff {A} (f g : A -> R) (l : list A) :
  (forall a, In a l -> f a <= g a) ->
  np_sum1 (map f l) = np_sum1 (map g l) <-> (forall a, In a l -> f a = g a).
Proof.
  induction l as [|a l IH]; intros H; simpl.
  - split; [intros _ a []|reflexivity].
  - pose proof (H a (or_introl eq_refl)) as Ha.
    assert (Hl : forall b, In b l -> f b <= g b)
      by (intros; apply H; now right).
    pose proof (sum_map_le f g l Hl) as Hle. specialize (IH Hl).
    split.
    + intros E b [<-|Hb]; [lra|]. apply IH; [lra|assumption].
    + intros E. rewrite (E a (or_introl eq_refl)).
      f_equal. apply IH. intros; apply E; now right.
Qed.

Lemma sum_map_scale {A} (f : A -> R) (c : R) (l : list A) :
  np_sum1 (map (fun a => f a * c) l) = np_sum1 (map f l) * c.
Proof. induction l as [|a l IH]; simpl; [lra|]. rewrite IH. lra. Qed.

Lemma np_sum_tabulate n f :
  np_sum (tabulate n f) = np_sum1 (map (row_sum n f) (linspace_int n)).
Proof. unfold np_sum, tabulate. now rewrite map_map. Qed.

Lemma np_sum_tabulate_le n f g :
  (forall x y, in_grid n x y -> f x y <= g x y) ->
  np_sum (tabulate n f) <= np_sum (tabulate n g).
Proof.
  intros H. rewrite !np_sum_tabulate. apply sum_map_le. intros y Hy.
  apply sum_map_le. intros x Hx. apply H. split; now apply In_linspace_int.
Qed.

Lemma np_sum_tabulate_eq_iff n f g :
  (forall x y, in_grid n x y -> f x y <= g x y) ->
  np_sum (tabulate n f) = np_sum (tabulate n g)
  <-> (forall x y, in_grid n x y -> f x y = g x y).
Proof.
  intros H. rewrite !np_sum_tabulate.
  assert (Hrow : forall y, In y (linspace_int n) ->
            forall x, In x (linspace_int n) -> f x y <= g x y).
  { intros y Hy x Hx. apply H. split; now apply In_linspace_int. }
  rewrite sum_map_eq_iff by (intros y Hy; apply sum_map_le; auto).
  split.
  - intros E x y [Hx Hy]. apply In_linspace_int in Hx, Hy.
    exact (proj1 (sum_map_eq_iff _ _ _ (Hrow y Hy)) (E y Hy) x Hx).
  - intros E y Hy. apply sum_map_eq_iff; [auto|].
    intros x Hx. apply E. split; now apply In_linspace_int.
Qed.

Lemma np_sum_tabulate_scale n f c :
  np_sum (tabulate n (fun x y => f x y * c)) = np_sum (tabulate n f) * c.
Proof.
  rewrite !np_sum_tabulate. rewrite <- sum_map_scale. f_equal.
  apply map_ext. intros y. unfold row_sum. apply sum_map_scale.
Qed.

Lemma np_sum_tabulate_zero n : np_sum (tabulate n (fun _ _ => 0)) = 0.
Proof.
  rewrite (tabulate_ext n _ (fun _ _ => 0 * 0)) by (intros; lra).
  rewrite (np_sum_tabulate_scale n (fun _ _ => 0) 0). lra.
Qed.

(** ** The flux map *)

Lemma pixel_value_range b : 0 <= pixel_value b <= 1.
Proof. destruct b; simpl; lra. Qed.

Section FluxMap.
Variable ellipse : R -> R -> R -> R -> Z -> Z -> bool.

(** [_draw_disk] tabulates the mask of its disk. *)
Lemma _draw_disk_tabulate gs center radius value :
  (0 <= gs)%Z -> 0 <= radius ->
  _draw_disk ellipse gs center radius value
  = Ok (tabulate gs
          (fun x y =>
             pixel_value (disk_mask ellipse center radius x y) * value)).
Proof.
  intros H Hr. unfold _draw_disk.
  destruct (Z.ltb_spec gs 0); [lia|]. cbv zeta. cbn [fst snd].
  destruct (Rlt_dec _ _); [exfalso; lra|].
  destruct (Rlt_dec _ _); [exfalso; lra|]. f_equal.
  unfold getdata. rewrite <- (linspace_int_length gs) at 1.
  rewrite reshape_flat_map
    by (intros; now rewrite length_map, linspace_int_length).
  exact (amap_tabulate gs (fun v => v * value)
           (fun x y => pixel_value (disk_mask ellipse center radius x y))).
Qed.

Lemma _draw_disk_Ok gs center radius value disk :
  _draw_disk ellipse gs center radius value = Ok disk ->
  (0 <= gs)%Z /\ 0 <= radius.
Proof.
  unfold _draw_disk. destruct (Z.ltb_spec gs 0); [discriminate|].
  cbv zeta. cbn [fst snd]. destruct (Rlt_dec _ _); [discriminate|].
  intros _. split; [lia|lra].
Qed.

Lemma star_radius_nonneg gs : (0 <= gs)%Z -> 0 <= IZR (gs / 2).
Proof. intros H. apply IZR_le. apply Z.div_pos; lia. Qed.

(** A call that returns was given a grid size and a planet radius that are
    not negative, and drew both disks. *)
Lemma draw_transit_Ok ratio impact phase gs dp pr ppr flux dens :
  draw_transit ellipse ratio impact phase gs dp pr ppr = Ok (flux, dens) ->
  (0 <= gs)%Z /\ 0 <= IZR (gs / 2) * ratio.
Proof.
  unfold draw_transit. intros H.
  destruct (_draw_disk ellipse gs (IZR (gs / 2), IZR (gs / 2)) (IZR (gs / 2)) 1)
    as [star|e] eqn:Es; [|discriminate].
  destruct (_draw_disk_Ok _ _ _ _ _ Es) as [Hgs _]. split; [assumption|].
  cbn [bind] in H.
  match type of H with
  | bind ?m _ = _ => destruct m as [d|e]; [|discriminate]
  end.
  cbn [bind] in H.
  destruct (_draw_disk ellipse gs _ (IZR (gs / 2) * ratio) 1)
    as [planet|e] eqn:Ep; [|discriminate].
  now destruct (_draw_disk_Ok _ _ _ _ _ Ep).
Qed.

(** Whatever else it is given, a call that returns has a grid size that is
    not negative and a flux map with the entries [flux_entry]. *)
Lemma draw_transit_flux ratio impact phase gs dp pr ppr flux dens :
  draw_transit ellipse ratio impact phase gs dp pr ppr = Ok (flux, dens) ->
  (0 <= gs)%Z /\ flux = tabulate gs (flux_entry ellipse ratio impact phase gs).
Proof.
  intros H. destruct (draw_transit_Ok _ _ _ _ _ _ _ _ _ H) as [Hgs Hpr].
  pose proof (star_radius_nonneg gs Hgs) as Hsr.
  split; [assumption|]. unfold draw_transit in H.
  rewrite !_draw_disk_tabulate in H by assumption. cbn [bind] in H.
  match type of H with
  | bind ?m _ = _ => destruct m as [d|e]; [|discriminate]
  end.
  cbn [bind] in H. injection H as <- _.
  unfold clip_min. rewrite !amap_tabulate, amap2_tabulate, amap_tabulate.
  reflexivity.
Qed.

Lemma draw_transit_returns_no_profile ratio impact phase gs pr ppr :
  (0 <= gs)%Z -> 0 <= IZR (gs / 2) * ratio ->
  exists flux dens,
    draw_transit ellipse ratio impact phase gs None pr ppr = Ok (flux, dens).
Proof.
  intros Hgs Hpr. pose proof (star_radius_nonneg gs Hgs) as Hsr.
  unfold draw_transit.
  rewrite !_draw_disk_tabulate by assumption. cbn [bind]. eauto.
Qed.

Lemma star_norm_nonneg gs : 0 <= star_norm ellipse gs.
Proof.
  unfold star_norm. rewrite <- (np_sum_tabulate_zero gs).
  apply np_sum_tabulate_le. intros x y _.
  pose proof (pixel_value_range (star_mask ellipse gs x y)). lra.
Qed.

Lemma star_norm_pos gs : star_nonempty ellipse gs -> 0 < star_norm ellipse gs.
Proof.
  intros (x & y & Hin & Hs).
  destruct (Rle_lt_or_eq_dec _ _ (star_norm_nonneg gs)) as [|E]; [assumption|].
  exfalso. unfold star_norm in E. rewrite <- (np_sum_tabulate_zero gs) in E.
  assert (Hpt : forall x' y', in_grid gs x' y' ->
            0 <= pixel_value (star_mask ellipse gs x' y') * 1).
  { intros x' y' _.
    pose proof (pixel_value_range (star_mask ellipse gs x' y')). lra. }
  pose proof (proj1 (np_sum_tabulate_eq_iff gs _ _ Hpt) E x y Hin) as E0.
  cbv beta in E0. rewrite Hs in E0. simpl in E0. lra.
Qed.

Lemma flux_entry_nonneg ratio impact phase gs x y :
  0 <= flux_entry ellipse ratio impact phase gs x y.
Proof. unfold flux_entry. apply Rmax_r. Qed.





(** *** The flux map with special values *)

Lemma gmap_gtabulate {A B} (g : A -> B) n (f : Z -> Z -> A) :
  map (map g) (gtabulate n f) = gtabulate n (fun x y => g (f x y)).
Proof.
  unfold gtabulate. rewrite map_map. apply map_ext. intros y.
  now rewrite map_map.
Qed.

Lemma gmap2_gtabulate {A B C} (h : A -> B -> C) n f g :
  map2 (map2 h) (gtabulate n f) (gtabulate n g)
  = gtabulate n (fun x y => h (f x y) (g x y)).
Proof.
  unfold gtabulate. rewrite map2_map. apply map_ext. intros y.
  now rewrite map2_map.
Qed.

Lemma gtabulate_ext_in {A} n (f g : Z -> Z -> A) :
  (forall x y, in_grid n x y -> f x y = g x y) ->
  gtabulate n f = gtabulate n g.
Proof.
  intros H. unfold gtabulate. apply map_ext_in. intros y Hy.
  apply map_ext_in. intros x Hx. apply H. split; now apply In_linspace_int.
Qed.

Lemma Forall_gtabulate {A} (P : A -> Prop) n f :
  (forall x y, in_grid n x y -> P (f x y)) ->
  Forall (Forall P) (gtabulate n f).
Proof.
  intros H. unfold gtabulate. apply Forall_forall. intros row Hr.
  apply in_map_iff in Hr. destruct Hr as (y & <- & Hy).
  apply Forall_forall. intros v Hv. apply in_map_iff in Hv.
  destruct Hv as (x & <- & Hx). apply H. split; now apply In_linspace_int.
Qed.

(** What [_draw_disk] does, case by case. *)
Lemma _draw_disk_cases gs center radius value :
  _draw_disk ellipse gs center radius value
  = if (gs <? 0)%Z then Raise ValueError
    else if Rlt_dec radius 0 then Raise ValueError
    else Ok (tabulate gs
               (fun x y =>
                  pixel_value (disk_mask ellipse center radius x y) * value)).
Proof.
  destruct (Z.ltb_spec gs 0) as [Hneg|Hpos].
  - unfold _draw_disk. now destruct (Z.ltb_spec gs 0); [|lia].
  - destruct (Rlt_dec radius 0) as [Hr|Hr].
    + unfold _draw_disk. destruct (Z.ltb_spec gs 0); [lia|].
      cbv zeta. cbn [fst snd]. destruct (Rlt_dec _ _); [reflexivity|].
      exfalso. lra.
    + apply _draw_disk_tabulate; [assumption|lra].
Qed.

Lemma flux_np_tabulate gs (norm : R) (S P : Z -> Z -> R) :
  map (map (np_clip_min 0))
    (map2 (map2 np_subtract)
       (map (map (fun v => np_true_divide v norm)) (tabulate gs S))
       (map (map (fun v => np_true_divide v norm)) (tabulate gs P)))
  = gtabulate gs
      (fun x y =>
         np_clip_min 0
           (np_subtract (np_true_divide (S x y) norm)
              (np_true_divide (P x y) norm))).
Proof.
  change (tabulate gs) with (@gtabulate R gs).
  now rewrite !gmap_gtabulate, gmap2_gtabulate, gmap_gtabulate.
Qed.

(** The two readings of [draw_transit] fail alike; where they return, the
    second returns the entries [flux_entry_np] and [density_entry_np]. *)
Lemma draw_transit_np_spec ratio impact phase gs dp pr ppr :
  draw_transit_np ellipse ratio impact phase gs dp pr ppr
  = match draw_transit ellipse ratio impact phase gs dp pr ppr with
    | Ok _ =>
        Ok (gtabulate gs (flux_entry_np ellipse ratio impact phase gs),
            gtabulate gs (density_entry_np ratio impact phase gs dp pr ppr))
    | Raise e => Raise e
    end.
Proof.
  unfold draw_transit_np, draw_transit. rewrite !_draw_disk_cases.
  destruct (gs <? 0)%Z; [reflexivity|].
  destruct (Rlt_dec (IZR (gs / 2)) 0); [reflexivity|]. cbn [bind].
  destruct dp as [dp|].
  - destruct ppr as [pprv|]; [|reflexivity].
    destruct (Req_dec_T (IZR (gs / 2) * ratio) 0); [reflexivity|].
    cbn [bind]. unfold interp1d.
    destruct pr as [prs|]; [|reflexivity].
    destruct (negb (length prs =? length (column_density dp))%nat);
      [reflexivity|].
    destruct (length prs =? 0)%nat; [reflexivity|].
    cbn [bind]. destruct (Rlt_dec (IZR (gs / 2) * ratio) 0); [reflexivity|].
    cbn [bind]. f_equal. f_equal; [apply flux_np_tabulate|].
    rewrite r_p_np_tabulate, gmap_gtabulate. reflexivity.
  - cbn [bind]. destruct (Rlt_dec (IZR (gs / 2) * ratio) 0); [reflexivity|].
    cbn [bind]. f_equal. f_equal; [apply flux_np_tabulate|].
    change (tabulate gs) with (@gtabulate R gs).
    now rewrite !gmap_gtabulate.
Qed.

(** What a returning call of the second reading returns. *)
Lemma draw_transit_np_Ok ratio impact phase gs dp pr ppr flux dens :
  draw_transit_np ellipse ratio impact phase gs dp pr ppr = Ok (flux, dens) ->
  (exists flux' dens',
      draw_transit ellipse ratio impact phase gs dp pr ppr
      = Ok (flux', dens'))
  /\ flux = gtabulate gs (flux_entry_np ellipse ratio impact phase gs)
  /\ dens = gtabulate gs (density_entry_np ratio impact phase gs dp pr ppr).
Proof.
  rewrite draw_transit_np_spec.
  destruct (draw_transit ellipse ratio impact phase gs dp pr ppr)
    as [[flux' dens']|e]; [|discriminate].
  intros H. injection H as <- <-. split; [now exists flux', dens'|].
  now split.
Qed.

(** Where the star covers a pixel, no special value arises: the entries
    are those of the reading over the reals. *)
Lemma flux_entry_np_finite ratio impact phase gs x y :
  star_nonempty ellipse gs ->
  flux_entry_np ellipse ratio impact phase gs x y
  = Fin (flux_entry ellipse ratio impact phase gs x y).
Proof.
  intros Hstar. pose proof (star_norm_pos gs Hstar) as Hn.
  unfold flux_entry_np, flux_entry, np_true_divide.
  destruct (Req_dec_T (star_norm ellipse gs) 0); [exfalso; lra|].
  reflexivity.
Qed.

Lemma draw_transit_np_finite ratio impact phase gs dp pr ppr flux dens :
  star_nonempty ellipse gs ->
  draw_transit ellipse ratio impact phase gs dp pr ppr = Ok (flux, dens) ->
  exists dens',
    draw_transit_np ellipse ratio impact phase gs dp pr ppr
    = Ok (map (map Fin) flux, dens').
Proof.
  intros Hstar H. rewrite draw_transit_np_spec, H.
  apply draw_transit_flux in H. destruct H as [_ ->].
  change (tabulate gs) with (@gtabulate R gs). rewrite gmap_gtabulate.
  exists (gtabulate gs (density_entry_np ratio impact phase gs dp pr ppr)).
  rewrite (gtabulate_ext_in gs
             (fun x y => Fin (flux_entry ellipse ratio impact phase gs x y))
             (flux_entry_np ellipse ratio impact phase gs));
    [reflexivity|].
  intros x y _. symmetry. now apply flux_entry_np_finite.
Qed.

(** C4, amended: where the rasterised star covers at least one pixel,
    every entry of a returned flux map is at least 0: the last step clips
    the grid at 0.  The flux map is read with the special values of its
    divisions. *)
Theorem flux_map_nonnegative ratio impact phase gs dp pr ppr flux dens :
  star_nonempty ellipse gs ->
  draw_transit_np ellipse ratio impact phase gs dp pr ppr
  = Ok (flux, dens) ->
  Forall (Forall (fun v => np_ge v 0)) flux.
Proof.
  intros Hstar H. apply draw_transit_np_Ok in H. destruct H as (_ & -> & _).
  apply Forall_gtabulate. intros x y _.
  rewrite flux_entry_np_finite by assumption. apply flux_entry_nonneg.
Qed.

End FluxMap.

(** ** Linear interpolation *)

Lemma insert_sample_perm p l : Permutation (insert_sample p l) (p :: l).
Proof.
  induction l as [|q t IH]; simpl; [reflexivity|].
  destruct (Rle_dec (fst p) (fst q)); [reflexivity|].
  rewrite IH. apply perm_swap.
Qed.

(** The sort keeps the samples and puts their abscissas in order. *)
Lemma sort_samples_perm l : Permutation (sort_samples l) l.
Proof.
  induction l as [|p l IH]; simpl; [reflexivity|].
  rewrite insert_sample_perm. now constructor.
Qed.

Lemma insert_sample_sorted p l :
  sorted_by_x l -> sorted_by_x (insert_sample p l).
Proof.
  unfold sorted_by_x. induction 1 as [|q t Hs IH Hq]; simpl.
  - repeat constructor.
  - destruct (Rle_dec (fst p) (fst q)) as [Hle|Hgt].
    + constructor; [now constructor|]. constructor; [assumption|].
      eapply Forall_impl; [|exact Hq]. simpl. intros; lra.
    + constructor; [assumption|].
      eapply Permutation_Forall; [symmetry; apply insert_sample_perm|].
      constructor; [lra|assumption].
Qed.

Lemma sort_samples_sorted l : sorted_by_x (sort_samples l).
Proof.
  induction l as [|p l IH]; simpl; [constructor|].
  now apply insert_sample_sorted.
Qed.

Lemma linear_interpolant_perm s s' r v :
  Permutation s s' -> linear_interpolant s r v -> linear_interpolant s' r v.
Proof.
  intros P [H|(x0 & y0 & x1 & y1 & H0 & H1 & Hr & Hb & Hv)].
  - left. eapply Permutation_in; eassumption.
  - right. exists x0, y0, x1, y1.
    split; [eapply Permutation_in; eassumption|].
    split; [eapply Permutation_in; eassumption|].
    split; [assumption|]. split; [|assumption].
    intros q Hq. apply Hb. eapply Permutation_in; [symmetry|]; eassumption.
Qed.

Lemma linear_interpolant_cons p s r v :
  (forall q, In q s -> fst p <= fst q) ->
  linear_interpolant s r v -> linear_interpolant (p :: s) r v.
Proof.
  intros Hp [H|(x0 & y0 & x1 & y1 & H0 & H1 & Hr & Hb & Hv)].
  - left. now right.
  - right. exists x0, y0, x1, y1.
    split; [now right|]. split; [now right|].
    split; [assumption|]. split; [|assumption].
    intros q [<-|Hq]; [|now apply Hb].
    specialize (Hp _ H0). simpl in Hp. lra.
Qed.

(** A linear interpolant stays between bounds of the ordinates. *)
Lemma linear_interpolant_bounds s r v lo hi :
  (forall q, In q s -> lo <= snd q <= hi) ->
  linear_interpolant s r v -> lo <= v <= hi.
Proof.
  intros Hs [H|(x0 & y0 & x1 & y1 & H0 & H1 & Hr & _ & ->)].
  - apply (Hs _ H).
  - pose proof (Hs _ H0) as Hy0. pose proof (Hs _ H1) as Hy1. simpl in *.
    assert (Hd : 0 < x1 - x0) by lra.
    pose proof (Rinv_0_lt_compat _ Hd) as Hi.
    set (t := (r - x0) * / (x1 - x0)).
    assert (Ht : 0 < t < 1).
    { unfold t. split.
      - apply Rmult_lt_0_compat; lra.
      - apply Rmult_lt_reg_r with (x1 - x0); [assumption|].
        rewrite Rmult_assoc, Rinv_l by lra. lra. }
    replace (y0 + (y1 - y0) / (x1 - x0) * (r - x0))
      with (y0 + (y1 - y0) * t) by (unfold t, Rdiv; ring).
    split; nra.
Qed.

(** On sorted samples, and between the first and the last abscissa, the
    scan computes the linear interpolant. *)
Lemma interp_sorted_spec pts r :
  sorted_by_x pts -> pts <> [] ->
  fst (hd (0, 0) pts) <= r <= fst (last pts (0, 0)) ->
  linear_interpolant pts r (interp_sorted pts r).
Proof.
  unfold sorted_by_x. induction 1 as [|[x0 y0] tl Hs IH Hq]; intros Hne Hr;
    [congruence|].
  destruct tl as [|[x1 y1] tl'].
  - simpl in *. left. left. f_equal. lra.
  - cbn [interp_sorted]. destruct (Rlt_dec r x1) as [Hlt|Hge].
    + simpl in Hr. destruct (Req_dec r x0) as [->|Hne0].
      * left. left. f_equal. lra.
      * right. exists x0, y0, x1, y1.
        split; [now left|]. split; [right; now left|].
        split; [lra|]. split; [|lra].
        intros q [<-|Hq']; simpl; [lra|].
        assert (x1 <= fst q).
        { destruct Hq' as [<-|Hq']; [simpl; lra|].
          inversion Hs as [|? ? _ Hall]; subst.
          rewrite Forall_forall in Hall. apply (Hall q Hq'). }
        lra.
    + apply linear_interpolant_cons.
      * intros q Hq'. rewrite Forall_forall in Hq. apply (Hq q Hq').
      * apply IH; [discriminate|].
        destruct Hr as [_ Hr].
        change (last ((x0, y0) :: (x1, y1) :: tl') (0, 0))
          with (last ((x1, y1) :: tl') (0, 0)) in Hr.
        split; [cbn [hd fst]; lra|exact Hr].
Qed.

Lemma fold_Rmin_le a t :
  fold_right Rmin a t <= a
  /\ forall x, In x t -> fold_right Rmin a t <= x.
Proof.
  induction t as [|b t [IH1 IH2]]; simpl.
  - split; [lra|intros x []].
  - split.
    + eapply Rle_trans; [apply Rmin_r|exact IH1].
    + intros x [<-|Hx]; [apply Rmin_l|].
      eapply Rle_trans; [apply Rmin_r|now apply IH2].
Qed.

Lemma fold_Rmin_in a t : In (fold_right Rmin a t) (a :: t).
Proof.
  induction t as [|b t IH]; simpl; [now left|].
  destruct (Rle_dec b (fold_right Rmin a t)).
  - rewrite Rmin_left by assumption. right; now left.
  - rewrite Rmin_right by lra.
    destruct IH as [H|H]; [now left|right; now right].
Qed.

Lemma fold_Rmax_ge a t :
  a <= fold_right Rmax a t
  /\ forall x, In x t -> x <= fold_right Rmax a t.
Proof.
  induction t as [|b t [IH1 IH2]]; simpl.
  - split; [lra|intros x []].
  - split.
    + eapply Rle_trans; [exact IH1|apply Rmax_r].
    + intros x [<-|Hx]; [apply Rmax_l|].
      eapply Rle_trans; [now apply IH2|apply Rmax_r].
Qed.

Lemma fold_Rmax_in a t : In (fold_right Rmax a t) (a :: t).
Proof.
  induction t as [|b t IH]; simpl; [now left|].
  destruct (Rle_dec b (fold_right Rmax a t)).
  - rewrite Rmax_right by assumption.
    destruct IH as [H|H]; [now left|right; now right].
  - rewrite Rmax_left by lra. right; now left.
Qed.

Lemma array_min_le l x : In x l -> array_min l <= x.
Proof.
  destruct l as [|a t]; [intros []|]. simpl.
  destruct (fold_Rmin_le a t) as [H1 H2]. intros [<-|Hx]; auto.
Qed.

Lemma array_min_in l : l <> [] -> In (array_min l) l.
Proof. destruct l as [|a t]; [congruence|]. intros _. apply fold_Rmin_in. Qed.

Lemma array_max_ge l x : In x l -> x <= array_max l.
Proof.
  destruct l as [|a t]; [intros []|]. simpl.
  destruct (fold_Rmax_ge a t) as [H1 H2]. intros [<-|Hx]; auto.
Qed.

Lemma array_max_in l : l <> [] -> In (array_max l) l.
Proof. destruct l as [|a t]; [congruence|]. intros _. apply fold_Rmax_in. Qed.

Lemma sorted_hd_le pts q :
  sorted_by_x pts -> In q pts -> fst (hd (0, 0) pts) <= fst q.
Proof.
  intros Hs Hq. destruct Hs as [|p t Hs Hall]; [destruct Hq|].
  destruct Hq as [<-|Hq]; simpl; [lra|].
  rewrite Forall_forall in Hall. now apply Hall.
Qed.

Lemma sorted_le_last pts q :
  sorted_by_x pts -> In q pts -> fst q <= fst (last pts (0, 0)).
Proof.
  unfold sorted_by_x. intros Hs. revert q.
  induction Hs as [|p t Hs IH Hall]; intros q Hq; [destruct Hq|].
  destruct t as [|p' t'].
  - destruct Hq as [<-|[]]. simpl. lra.
  - change (last (p :: p' :: t') (0, 0)) with (last (p' :: t') (0, 0)).
    destruct Hq as [<-|Hq]; [|now apply IH].
    eapply Rle_trans; [|apply IH; now left].
    inversion Hall; assumption.
Qed.

Lemma last_in {A} (l : list A) d : l <> [] -> In (last l d) l.
Proof.
  induction l as [|a [|b t] IH]; intros H; [congruence|now left|].
  right. apply IH. discriminate.
Qed.

(** The sorted samples start at the least abscissa and end at the
    greatest. *)
Lemma sorted_hd_min pts s :
  sorted_by_x pts -> Permutation pts s -> s <> [] ->
  fst (hd (0, 0) pts) = array_min (map fst s).
Proof.
  intros Hs P Hne.
  assert (Hpne : pts <> []).
  { intros ->. apply Permutation_nil in P. congruence. }
  apply Rle_antisym.
  - assert (Hin : In (array_min (map fst s)) (map fst s)).
    { apply array_min_in. destruct s; [congruence|discriminate]. }
    apply in_map_iff in Hin. destruct Hin as (q & <- & Hq).
    apply sorted_hd_le; [assumption|].
    eapply Permutation_in; [symmetry|]; eassumption.
  - apply array_min_le. apply in_map.
    eapply Permutation_in; [eassumption|].
    destruct pts; [congruence|now left].
Qed.

Lemma sorted_last_max pts s :
  sorted_by_x pts -> Permutation pts s -> s <> [] ->
  fst (last pts (0, 0)) = array_max (map fst s).
Proof.
  intros Hs P Hne.
  assert (Hpne : pts <> []).
  { intros ->. apply Permutation_nil in P. congruence. }
  apply Rle_antisym.
  - apply array_max_ge. apply in_map.
    eapply Permutation_in; [eassumption|]. now apply last_in.
  - assert (Hin : In (array_max (map fst s)) (map fst s)).
    { apply array_max_in. destruct s; [congruence|discriminate]. }
    apply in_map_iff in Hin. destruct Hin as (q & <- & Hq).
    apply sorted_le_last; [assumption|].
    eapply Permutation_in; [symmetry|]; eassumption.
Qed.

(** The sorted samples are not empty, start at the least abscissa and end
    at the greatest. *)
Lemma sort_samples_ends s :
  s <> [] ->
  exists x0 y0 tl,
    sort_samples s = (x0, y0) :: tl
    /\ x0 = array_min (map fst s)
    /\ fst (last ((x0, y0) :: tl) (0, 0)) = array_max (map fst s).
Proof.
  intros Hne.
  pose proof (sort_samples_sorted s) as Hs.
  pose proof (sort_samples_perm s) as P.
  pose proof (sorted_hd_min _ s Hs P Hne) as Hmin.
  pose proof (sorted_last_max _ s Hs P Hne) as Hmax.
  destruct (sort_samples s) as [|[x0 y0] tl].
  - apply Permutation_nil in P. congruence.
  - now exists x0, y0, tl.
Qed.

(** The two cases of the interpolating function. *)
Lemma interp_eval_outside fill s r :
  s <> [] ->
  r < array_min (map fst s) \/ array_max (map fst s) < r ->
  interp_eval fill (sort_samples s) r = fill.
Proof.
  intros Hne Hr.
  destruct (sort_samples_ends s Hne) as (x0 & y0 & tl & -> & Hmin & Hmax).
  unfold interp_eval.
  destruct (Rlt_dec r x0); [reflexivity|].
  destruct (Rlt_dec (fst (last ((x0, y0) :: tl) (0, 0))) r); [reflexivity|].
  exfalso. lra.
Qed.

Lemma interp_eval_inside fill s r :
  s <> [] ->
  array_min (map fst s) <= r <= array_max (map fst s) ->
  linear_interpolant s r (interp_eval fill (sort_samples s) r).
Proof.
  intros Hne Hr.
  apply (linear_interpolant_perm (sort_samples s)); [apply sort_samples_perm|].
  pose proof (sort_samples_sorted s) as Hs.
  destruct (sort_samples_ends s Hne) as (x0 & y0 & tl & E & Hmin & Hmax).
  rewrite E in *. unfold interp_eval.
  destruct (Rlt_dec r x0); [exfalso; lra|].
  destruct (Rlt_dec (fst (last ((x0, y0) :: tl) (0, 0))) r); [exfalso; lra|].
  apply interp_sorted_spec; [assumption|discriminate|].
  cbn [hd fst]. lra.
Qed.

Lemma map_fst_combine {A B} (l : list A) (l' : list B) :
  length l = length l' -> map fst (combine l l') = l.
Proof.
  revert l'.
  induction l as [|a l IH]; intros [|b l'] H; simpl in *; try congruence.
  f_equal. apply IH. congruence.
Qed.

(** The profile that is interpolated is four times the supplied one. *)
Lemma column_density_four dp : column_density dp = map (fun v => 4 * v) dp.
Proof.
  unfold column_density, np_sum_axis0. cbn [fold_left].
  induction dp as [|d dp IH]; simpl; [reflexivity|].
  rewrite IH. f_equal. lra.
Qed.

(** ** The density map *)

Section DensityMap.
Variable ellipse : R -> R -> R -> R -> Z -> Z -> bool.

Lemma column_density_length dp : length (column_density dp) = length dp.
Proof. rewrite column_density_four. apply length_map. Qed.

Lemma samples_nonempty (prs dp : array1) :
  length prs = length dp -> prs <> [] -> combine prs (column_density dp) <> [].
Proof.
  intros Hlen Hne E. apply Hne.
  rewrite <- (map_fst_combine prs (column_density dp))
    by (now rewrite column_density_length).
  now rewrite E.
Qed.

(** Without a profile the density map is the zero array. *)
Lemma draw_transit_no_profile ratio impact phase gs pr ppr flux dens :
  draw_transit ellipse ratio impact phase gs None pr ppr = Ok (flux, dens) ->
  dens = tabulate gs (fun _ _ => 0).
Proof.
  intros H. destruct (draw_transit_Ok _ _ _ _ _ _ _ _ _ _ H) as [Hgs Hpr].
  pose proof (star_radius_nonneg gs Hgs) as Hsr.
  unfold draw_transit in H.
  rewrite !_draw_disk_tabulate in H by assumption. cbn [bind] in H.
  injection H as _ <-. unfold zeros_like. now rewrite !amap_tabulate.
Qed.

(** With a profile, a call that returns was given both companions, samples
    of matching length, and interpolates at every pixel. *)
Lemma draw_transit_density ratio impact phase gs dp pr ppr flux dens :
  draw_transit ellipse ratio impact phase gs (Some dp) pr ppr
  = Ok (flux, dens) ->
  exists prs pprv,
    pr = Some prs /\ ppr = Some pprv /\ length prs = length dp /\ prs <> []
    /\ dens = tabulate gs (fun x y =>
                interp_eval 0 (sort_samples (combine prs (column_density dp)))
                  (physical_radius ratio impact phase gs pprv x y)).
Proof.
  intros H. destruct (draw_transit_Ok _ _ _ _ _ _ _ _ _ _ H) as [Hgs Hpr].
  pose proof (star_radius_nonneg gs Hgs) as Hsr.
  unfold draw_transit in H.
  rewrite !_draw_disk_tabulate in H by assumption. cbn [bind] in H.
  destruct ppr as [pprv|]; [|discriminate].
  destruct (Req_dec_T (IZR (gs / 2) * ratio) 0); [discriminate|].
  cbn [bind] in H. unfold interp1d in H.
  destruct pr as [prs|]; [|discriminate].
  rewrite column_density_length in H.
  destruct (Nat.eqb_spec (length prs) (length dp)) as [Hlen|]; [|discriminate].
  destruct (Nat.eqb_spec (length prs) 0) as [|Hnz]; [discriminate|].
  cbn [negb bind] in H. injection H as _ <-.
  exists prs, pprv.
  split; [reflexivity|]. split; [reflexivity|]. split; [assumption|].
  split; [intros ->; now apply Hnz|].
  rewrite r_p_tabulate. apply amap_tabulate.
Qed.

Lemma draw_transit_returns ratio impact phase gs dp prs ppr :
  (0 <= gs)%Z -> 0 < IZR (gs / 2) * ratio ->
  length prs = length dp -> prs <> [] ->
  exists flux dens,
    draw_transit ellipse ratio impact phase gs (Some dp) (Some prs) (Some ppr)
    = Ok (flux, dens).
Proof.
  intros Hgs Hr Hlen Hne. pose proof (star_radius_nonneg gs Hgs) as Hsr.
  unfold draw_transit.
  rewrite !_draw_disk_tabulate by (assumption || lra). cbn [bind].
  destruct (Req_dec_T (IZR (gs / 2) * ratio) 0); [exfalso; lra|].
  cbn [bind]. unfold interp1d. rewrite column_density_length.
  destruct (Nat.eqb_spec (length prs) (length dp)); [|contradiction].
  destruct (Nat.eqb_spec (length prs) 0) as [E|].
  { destruct prs; [congruence|discriminate]. }
  cbn [negb bind]. eauto.
Qed.

Lemma density_entry ratio impact phase gs dp prs ppr flux dens x y :
  draw_transit ellipse ratio impact phase gs (Some dp) (Some prs) (Some ppr)
  = Ok (flux, dens) ->
  in_grid gs x y ->
  length prs = length dp /\ prs <> [] /\
  entry dens x y
  = interp_eval 0 (sort_samples (combine prs (column_density dp)))
      (physical_radius ratio impact phase gs ppr x y).
Proof.
  intros H [Hx Hy]. apply draw_transit_density in H.
  destruct H as (prs' & ppr' & E1 & E2 & Hlen & Hne & ->).
  injection E1 as <-. injection E2 as <-.
  split; [assumption|]. split; [assumption|]. now rewrite entry_tabulate.
Qed.

(** *** The density map with 64-bit integers *)

(** With a profile, a returning call of the second reading was given both
    companions. *)
Lemma draw_transit_np_density ratio impact phase gs dp pr ppr flux dens :
  draw_transit_np ellipse ratio impact phase gs (Some dp) pr ppr
  = Ok (flux, dens) ->
  exists prs pprv flux' dens',
    pr = Some prs /\ ppr = Some pprv
    /\ draw_transit ellipse ratio impact phase gs (Some dp) (Some prs)
         (Some pprv)
       = Ok (flux', dens')
    /\ dens = gtabulate gs
                (density_entry_np ratio impact phase gs (Some dp) (Some prs)
                   (Some pprv)).
Proof.
  intros H. apply draw_transit_np_Ok in H.
  destruct H as ((flux' & dens' & E) & _ & ->).
  destruct (draw_transit_density _ _ _ _ _ _ _ _ _ E)
    as (prs & pprv & -> & -> & _).
  now exists prs, pprv, flux', dens'.
Qed.

(** Where the offsets fit 64 bits, the entry of the second reading is the
    entry of the first. *)
Lemma density_entry_np_exact ratio impact phase gs dp prs ppr flux dens x y :
  draw_transit ellipse ratio impact phase gs (Some dp) (Some prs) (Some ppr)
  = Ok (flux, dens) ->
  in_grid gs x y ->
  offsets_fit_int64 gs phase impact x y ->
  density_entry_np ratio impact phase gs (Some dp) (Some prs) (Some ppr) x y
  = Fin (entry dens x y).
Proof.
  intros H Hin (_ & _ & Hfit).
  destruct (density_entry _ _ _ _ _ _ _ _ _ _ _ H Hin) as (_ & _ & ->).
  unfold density_entry_np, physical_radius.
  now rewrite r_p_entry_np_exact by assumption.
Qed.

(** C1, amended: at every pixel whose physical radius lies within the range
    of [profile_radius], the density map is the linear interpolant of the
    pairs [(profile_radius, 4 * density_profile)]: the code doubles the sum
    of two copies of the profile, which is four times the profile, not
    twice.  The pixel is one whose offsets from the planet's centre fit the
    64-bit integers of the radius map: beyond that the squares wrap around
    and the code interpolates at another radius. *)
Theorem density_map_interpolates_four_times ratio impact phase gs dp prs ppr
  flux dens x y :
  draw_transit_np ellipse ratio impact phase gs (Some dp) (Some prs)
    (Some ppr)
  = Ok (flux, dens) ->
  in_grid gs x y ->
  offsets_fit_int64 gs phase impact x y ->
  array_min prs <= physical_radius ratio impact phase gs ppr x y
                <= array_max prs ->
  exists v,
    entry_at dens x y = Some (Fin v)
    /\ linear_interpolant (combine prs (map (fun v => 4 * v) dp))
         (physical_radius ratio impact phase gs ppr x y) v.
Proof.
  intros H Hin Hfit Hr. apply draw_transit_np_density in H.
  destruct H as (prs' & ppr' & flux' & dens' & E1 & E2 & E & ->).
  injection E1 as <-. injection E2 as <-.
  exists (entry dens' x y). split.
  - rewrite entry_at_gtabulate by assumption.
    now rewrite (density_entry_np_exact _ _ _ _ _ _ _ _ _ _ _ E Hin Hfit).
  - destruct (density_entry _ _ _ _ _ _ _ _ _ _ _ E Hin) as (Hlen & Hne & ->).
    rewrite <- column_density_four. apply interp_eval_inside.
    + now apply samples_nonempty.
    + rewrite map_fst_combine by (now rewrite column_density_length).
      exact Hr.
Qed.

(** C5, amended: the density map has the entry 0 at every pixel that lies
    outside the supplied profile: at every pixel when no density profile is
    given, and otherwise at the pixels whose physical radius is below the
    least or above the greatest entry of [profile_radius] and whose offsets
    from the planet's centre fit the 64-bit integers of the radius map. *)
Theorem density_map_zero_outside_profile ratio impact phase gs dp pr ppr
  flux dens x y :
  draw_transit_np ellipse ratio impact phase gs dp pr ppr
  = Ok (flux, dens) ->
  in_grid gs x y ->
  (dp <> None -> offsets_fit_int64 gs phase impact x y) ->
  outside_profile ratio impact phase gs dp pr ppr x y ->
  entry_at dens x y = Some (Fin 0).
Proof.
  intros H Hin Hfit Ho. destruct dp as [dp|].
  - apply draw_transit_np_density in H.
    destruct H as (prs & pprv & flux' & dens' & -> & -> & E & ->).
    cbn [outside_profile] in Ho.
    rewrite entry_at_gtabulate by assumption.
    rewrite (density_entry_np_exact _ _ _ _ _ _ _ _ _ _ _ E Hin)
      by (apply Hfit; discriminate).
    destruct (density_entry _ _ _ _ _ _ _ _ _ _ _ E Hin) as (Hlen & Hne & ->).
    do 2 f_equal. apply interp_eval_outside.
    + now apply samples_nonempty.
    + rewrite map_fst_combine by (now rewrite column_density_length).
      exact Ho.
  - apply draw_transit_np_Ok in H. destruct H as (_ & _ & ->).
    now rewrite entry_at_gtabulate.
Qed.


Lemma in_combine_snd_map {A} (f : R -> R) (l : list A) (dp : list R) q :
  In q (combine l (map f dp)) -> exists d, In d dp /\ snd q = f d.
Proof.
  destruct q as [a b]. intros H. apply in_combine_r in H.
  apply in_map_iff in H. destruct H as (d & <- & Hd). now exists d.
Qed.




End DensityMap.

(** ** Scalars, and the transmission profile *)

Lemma py_int_round_toward_zero v : py_int v = round_toward_zero v.
Proof.
  unfold py_int, round_toward_zero.
  destruct (Rle_dec 0 v) as [Hv|Hv]; destruct (Rlt_dec v 0) as [Hn|Hn];
    try (exfalso; lra).
  - rewrite Rabs_right by lra. lia.
  - rewrite Rabs_left by lra. unfold Zceil. lia.
Qed.

Lemma round_toward_zero_spec v :
  Rabs (IZR (round_toward_zero v)) <= Rabs v
                                   < Rabs (IZR (round_toward_zero v)) + 1
  /\ 0 <= v * IZR (round_toward_zero v).
Proof.
  unfold round_toward_zero. destruct (Rlt_dec v 0) as [Hn|Hn].
  - rewrite (Rabs_left v) by lra.
    pose proof (Zfloor_bound (- v)) as [H1 H2].
    assert (0 <= Zfloor (- v))%Z by (apply Zfloor_lub; lra).
    assert (0 <= IZR (Zfloor (- v))) by (now apply IZR_le).
    replace (IZR (-1 * Zfloor (- v))) with (- IZR (Zfloor (- v)))
      by (rewrite <- opp_IZR; f_equal; lia).
    rewrite Rabs_left1 by lra. split; [lra|nra].
  - rewrite (Rabs_right v) by lra.
    pose proof (Zfloor_bound v) as [H1 H2].
    assert (0 <= Zfloor v)%Z by (apply Zfloor_lub; lra).
    assert (0 <= IZR (Zfloor v)) by (now apply IZR_le).
    replace (1 * Zfloor v)%Z with (Zfloor v) by lia.
    rewrite Rabs_right by lra. split; [lra|nra].
Qed.

Lemma round_toward_zero_unique v n :
  Rabs (IZR n) <= Rabs v < Rabs (IZR n) + 1 -> 0 <= v * IZR n ->
  round_toward_zero v = n.
Proof.
  intros [H1 H2] Hs. unfold round_toward_zero.
  destruct (Rlt_dec v 0) as [Hn|Hn].
  - rewrite (Rabs_left v) in * by lra.
    assert (IZR n <= 0) by nra. rewrite (Rabs_left1 (IZR n)) in * by lra.
    rewrite (Zfloor_eq (- n)); [lia|]. rewrite opp_IZR. lra.
  - rewrite (Rabs_right v) in * by lra.
    destruct (Rle_dec 0 (IZR n)) as [Hp|Hp].
    + rewrite (Rabs_right (IZR n)) in * by lra.
      rewrite (Zfloor_eq n); [lia|lra].
    + rewrite (Rabs_left (IZR n)) in * by lra.
      assert (v = 0) by nra. subst v.
      assert (Hlt : IZR n < IZR 0) by lra. apply lt_IZR in Hlt.
      assert (IZR n <= IZR (-1)) by (apply IZR_le; lia). lra.
Qed.

(** C2: the planet's centre pixel is
    [x_p = grid_size//2 + round_toward_zero(phase * grid_size)] and
    [y_p = grid_size//2 + round_toward_zero(impact_parameter * grid_size // 2)],
    for every phase, impact parameter and grid size, where [//] is Python's
    floor division and the conversion to an integer truncates towards
    zero: the magnitude of the result does not exceed that of the argument
    and is less than one below it, and the sign is kept.  It neither floors
    ([-1/2] goes to [0]) nor rounds ([3/4] goes to [0]). *)
Theorem planet_center_truncation grid_size phase impact_parameter :
  x_p grid_size phase
  = (grid_size / 2 + round_toward_zero (phase * IZR grid_size))%Z
  /\ y_p grid_size impact_parameter
     = (grid_size / 2
        + round_toward_zero
            (py_floordiv (impact_parameter * IZR grid_size) 2))%Z
  /\ (forall v,
        Rabs (IZR (round_toward_zero v)) <= Rabs v
        /\ Rabs v < Rabs (IZR (round_toward_zero v)) + 1
        /\ 0 <= v * IZR (round_toward_zero v))
  /\ round_toward_zero (- (1 / 2)) = 0%Z
  /\ round_toward_zero (3 / 4) = 0%Z.
Proof.
  unfold x_p, y_p. rewrite !py_int_round_toward_zero.
  split; [reflexivity|]. split; [reflexivity|]. split.
  - intros v. pose proof (round_toward_zero_spec v). tauto.
  - split; apply round_toward_zero_unique; simpl; rewrite ?Rabs_R0;
      try rewrite Rabs_left by lra; try rewrite Rabs_right by lra; lra.
Qed.

(** The floor division makes the vertical offset a floor: the truncation
    that follows acts on a whole number. *)
Lemma y_p_floor grid_size impact_parameter :
  y_p grid_size impact_parameter
  = (grid_size / 2 + Zfloor (impact_parameter * IZR grid_size / 2))%Z.
Proof.
  unfold y_p, py_floordiv, py_int.
  destruct (Rle_dec 0 (IZR (Zfloor (impact_parameter * IZR grid_size / 2)))).
  - now rewrite ZfloorZ.
  - unfold Zceil. rewrite <- opp_IZR, ZfloorZ. lia.
Qed.

(** C8: the Lorentzian width in wavelength space that [transmission] uses
    is the difference of the two converted offsets,
    [c/(nu0 - gamma_nu/2) - c/(nu0 + gamma_nu/2)] with
    [gamma_nu = einstein_coeff / (4 pi)] and [nu0 = c / reference_wavelength]:
    the exact round trip, not a linearisation. *)
Theorem gamma_lambda_round_trip einstein_coeff reference_wavelength :
  let gamma_nu := einstein_coeff / (4 * PI) in
  let nu0 := c_speed / reference_wavelength in
  gamma_lambda einstein_coeff reference_wavelength
  = c_speed / (nu0 - gamma_nu / 2) - c_speed / (nu0 + gamma_nu / 2).
Proof.
  cbv zeta. unfold gamma_lambda. cbn [map np_diff nth].
  replace (einstein_coeff / 4 / PI) with (einstein_coeff / (4 * PI))
    by (unfold Rdiv; rewrite Rinv_mult; ring).
  set (g := einstein_coeff / (4 * PI)).
  set (nu0 := c_speed / reference_wavelength).
  replace (- g / 2 + nu0) with (nu0 - g / 2) by lra.
  replace (g / 2 + nu0) with (nu0 + g / 2) by lra.
  lra.
Qed.

Lemma c_speed_pos : 0 < c_speed.
Proof. unfold c_speed. lra. Qed.

(** The round trip is not the first-order conversion
    [gamma_nu * w0 ^ 2 / c]: for [gamma_nu = nu0] at unit wavelength the
    code gives 4/3 where the linearisation gives 1. *)
Example gamma_lambda_not_linearised :
  gamma_lambda (4 * PI * c_speed) 1 = 4 / 3
  /\ (4 * PI * c_speed) / (4 * PI) * 1 ^ 2 / c_speed = 1.
Proof.
  pose proof c_speed_pos as Hc. pose proof PI_RGT_0 as Hpi.
  split.
  - unfold gamma_lambda. cbn [map np_diff nth].
    replace (4 * PI * c_speed / 4 / PI) with c_speed by (field; lra).
    field. lra.
  - field. lra.
Qed.

(** C9: the absorption has the shape of [wavelength_grid], for every
    cross-section helper that keeps the shape of the profile it is given:
    a scalar wavelength gives a scalar, an array of length [n] gives an
    array of length [n]. *)
Theorem transmission_preserves_shape
  (voigt_profile : R -> R -> R -> R)
  (cross_section : R -> R -> R -> ndvalue -> ndvalue)
  (cell_density cell_temperature oscillator_strength einstein_coeff : R)
  (wavelength_grid : ndvalue) (reference_wavelength particle_mass : R) :
  (forall f w0 alpha phi, shape (cross_section f w0 alpha phi) = shape phi) ->
  shape (transmission voigt_profile cross_section cell_density
           cell_temperature oscillator_strength einstein_coeff
           wavelength_grid reference_wavelength particle_mass)
  = shape wavelength_grid
  /\ (forall w, wavelength_grid = Scalar w ->
        exists a, transmission voigt_profile cross_section cell_density
           cell_temperature oscillator_strength einstein_coeff
           wavelength_grid reference_wavelength particle_mass = Scalar a)
  /\ (forall ws, wavelength_grid = Array ws ->
        exists a, transmission voigt_profile cross_section cell_density
           cell_temperature oscillator_strength einstein_coeff
           wavelength_grid reference_wavelength particle_mass = Array a
           /\ length a = length ws).
Proof.
  intros Hcs.
  assert (Hv : forall f v, shape (vmap f v) = shape v).
  { intros f [x|a]; simpl; [reflexivity|now rewrite length_map]. }
  assert (Hs : shape (transmission voigt_profile cross_section cell_density
           cell_temperature oscillator_strength einstein_coeff
           wavelength_grid reference_wavelength particle_mass)
          = shape wavelength_grid).
  { unfold transmission. now rewrite Hv, Hcs, Hv. }
  split; [exact Hs|]. split.
  - intros w ->. destruct (transmission _ _ _ _ _ _ _ _ _) as [a|a];
      [now exists a|discriminate].
  - intros ws ->. destruct (transmission _ _ _ _ _ _ _ _ _) as [a|a];
      [discriminate|].
    exists a. split; [reflexivity|]. simpl in Hs. congruence.
Qed.

(** ** Concrete grids

    The properties at explicit inputs, on a grid of 3 by 3 pixels drawn by
    the rasteriser [ellipse_geom]. *)

Lemma py_int_IZR z : py_int (IZR z) = z.
Proof.
  unfold py_int. destruct (Rle_dec 0 (IZR z)); [apply ZfloorZ|].
  unfold Zceil. rewrite <- opp_IZR, ZfloorZ. lia.
Qed.

Lemma x_p_centre gs : x_p gs 0 = (gs / 2)%Z.
Proof.
  unfold x_p. replace (0 * IZR gs) with (IZR 0) by lra.
  rewrite py_int_IZR. lia.
Qed.

Lemma y_p_centre gs : y_p gs 0 = (gs / 2)%Z.
Proof.
  unfold y_p, py_floordiv. replace (0 * IZR gs / 2) with (IZR 0) by lra.
  rewrite ZfloorZ, py_int_IZR. lia.
Qed.

Section Concentric.
Variable ellipse : R -> R -> R -> R -> Z -> Z -> bool.




End Concentric.

Lemma in_grid_3_centre : in_grid 3 1 1.
Proof. split; lia. Qed.

(** On the grid of 3 by 3 pixels with the planet at the centre, every
    offset is -1, 0 or 1. *)
Lemma offsets_fit_int64_3 x y : in_grid 3 x y -> offsets_fit_int64 3 0 0 x y.
Proof.
  intros [Hx Hy]. unfold offsets_fit_int64, int64_max.
  rewrite x_p_centre, y_p_centre. change (3 / 2)%Z with 1%Z.
  split; [simpl; lia|]. split; [simpl; lia|].
  assert ((x - 1) ^ 2 <= 1)%Z by nia. assert ((y - 1) ^ 2 <= 1)%Z by nia.
  lia.
Qed.

(** Under [ellipse_geom] the star covers its centre pixel on every grid of
    two pixels or more. *)
Lemma star_nonempty_geom gs : (2 <= gs)%Z -> star_nonempty ellipse_geom gs.
Proof.
  intros Hgs. exists (gs / 2)%Z, (gs / 2)%Z.
  assert (Hc : (1 <= gs / 2 < gs)%Z).
  { split; [apply Z.div_le_lower_bound; lia|apply Z.div_lt; lia]. }
  split; [split; lia|].
  assert (Hr : 1 <= IZR (gs / 2)) by (apply IZR_le; lia).
  unfold star_mask, disk_mask, ellipse_geom. cbn [fst snd].
  set (c := IZR (gs / 2)) in *.
  destruct (Rlt_dec 0 ((c + c - (c - c)) / 2)) as [_|H]; [|exfalso; lra].
  destruct (Rle_dec _ _) as [_|H]; [reflexivity|exfalso; apply H; nra].
Qed.

Lemma star_nonempty_geom_3 : star_nonempty ellipse_geom 3.
Proof. apply star_nonempty_geom. lia. Qed.

Lemma physical_radius_centre_3 ppr : physical_radius 1 0 0 3 ppr 1 1 = 0.
Proof.
  unfold physical_radius, r_p_entry. rewrite x_p_centre, y_p_centre.
  change ((1 - 3 / 2) ^ 2 + (1 - 3 / 2) ^ 2)%Z with 0%Z.
  rewrite sqrt_0. lra.
Qed.

Lemma physical_radius_edge_3 : physical_radius 1 0 0 3 2 1 0 = 2.
Proof.
  unfold physical_radius, r_p_entry. rewrite x_p_centre, y_p_centre.
  change ((1 - 3 / 2) ^ 2 + (0 - 3 / 2) ^ 2)%Z with 1%Z.
  change (3 / 2)%Z with 1%Z. rewrite sqrt_1. lra.
Qed.

Lemma array_min_0_1 : array_min [0; 1] = 0.
Proof. simpl. apply Rmin_right. lra. Qed.

Lemma array_max_0_1 : array_max [0; 1] = 1.
Proof. simpl. apply Rmax_left. lra. Qed.

Lemma in_range_3 ppr :
  array_min [0; 1] <= physical_radius 1 0 0 3 ppr 1 1 <= array_max [0; 1].
Proof.
  rewrite physical_radius_centre_3, array_min_0_1, array_max_0_1. lra.
Qed.

Lemma draw_transit_returns_3 dp ppr :
  length dp = 2%nat ->
  exists flux dens,
    draw_transit ellipse_geom 1 0 0 3 (Some dp) (Some [0; 1]) (Some ppr)
    = Ok (flux, dens).
Proof.
  intros Hd. apply draw_transit_returns.
  - lia.
  - change (3 / 2)%Z with 1%Z. lra.
  - now rewrite Hd.
  - discriminate.
Qed.

(** With two samples at 0 and 1, the interpolant at 0 is the first
    ordinate. *)
Lemma interpolant_two_nodes_at_first y0 y1 v :
  linear_interpolant [(0, y0); (1, y1)] 0 v -> v = y0.
Proof.
  intros [H|(x0 & a & x1 & b & H0 & _ & Hr & _)].
  - destruct H as [H|[H|[]]]; injection H; intros; lra.
  - destruct H0 as [H|[H|[]]]; injection H; intros; lra.
Qed.

(** On the grid of 3 by 3 pixels, with samples at the radii 0 and 1, the
    centre pixel holds four times the first density. *)
Lemma density_centre_3 a b flux dens :
  draw_transit ellipse_geom 1 0 0 3 (Some [a; b]) (Some [0; 1]) (Some 1)
  = Ok (flux, dens) ->
  entry dens 1 1 = 4 * a.
Proof.
  intros E.
  destruct (density_entry _ _ _ _ _ _ _ _ _ _ _ _ E in_grid_3_centre)
    as (_ & _ & ->).
  rewrite column_density_four, physical_radius_centre_3.
  apply (interpolant_two_nodes_at_first (4 * a) (4 * b)).
  apply (interp_eval_inside 0 [(0, 4 * a); (1, 4 * b)]); [discriminate|].
  cbn [map fst]. rewrite array_min_0_1, array_max_0_1. lra.
Qed.

(** The second reading returns where the first does. *)
Lemma draw_transit_np_returns ellipse ratio impact phase gs dp pr ppr :
  (exists flux dens,
      draw_transit ellipse ratio impact phase gs dp pr ppr
      = Ok (flux, dens)) ->
  draw_transit_np ellipse ratio impact phase gs dp pr ppr
  = Ok (gtabulate gs (flux_entry_np ellipse ratio impact phase gs),
        gtabulate gs (density_entry_np ratio impact phase gs dp pr ppr)).
Proof. intros (flux & dens & H). now rewrite draw_transit_np_spec, H. Qed.

Lemma draw_transit_np_returns_3 dp ppr :
  length dp = 2%nat ->
  exists flux dens,
    draw_transit_np ellipse_geom 1 0 0 3 (Some dp) (Some [0; 1]) (Some ppr)
    = Ok (flux, dens).
Proof.
  intros Hd. do 2 eexists. apply draw_transit_np_returns.
  now apply draw_transit_returns_3.
Qed.

Lemma density_centre_3_np a b flux dens :
  draw_transit_np ellipse_geom 1 0 0 3 (Some [a; b]) (Some [0; 1]) (Some 1)
  = Ok (flux, dens) ->
  entry_at dens 1 1 = Some (Fin (4 * a)).
Proof.
  intros H. apply draw_transit_np_density in H.
  destruct H as (prs & pprv & flux' & dens' & E1 & E2 & E & ->).
  injection E1 as <-. injection E2 as <-.
  rewrite entry_at_gtabulate by exact in_grid_3_centre.
  rewrite (density_entry_np_exact ellipse_geom _ _ _ _ _ _ _ _ _ _ _ E
             in_grid_3_centre (offsets_fit_int64_3 1 1 in_grid_3_centre)).
  now rewrite (density_centre_3 _ _ _ _ E).
Qed.


(** *** A planet far off the grid

    At a phase of [3e9] on the grid of 3 by 3 pixels the planet's centre is
    at column 9000000001.  The offset of the centre pixel, -9000000000, fits
    64 bits; its square, 81e18, does not, and wraps to
    7213023705161793536. *)

Lemma x_p_IZR gs k : x_p gs (IZR k) = (gs / 2 + k * gs)%Z.
Proof. unfold x_p. now rewrite <- mult_IZR, py_int_IZR. Qed.

Lemma x_p_far : x_p 3 3000000000 = 9000000001%Z.
Proof. now rewrite x_p_IZR. Qed.

Lemma physical_radius_far ppr :
  physical_radius 1 0 3000000000 3 ppr 1 1 = 9000000000 * ppr.
Proof.
  unfold physical_radius, r_p_entry. rewrite x_p_far, y_p_centre.
  change ((1 - 9000000001) ^ 2 + (1 - 3 / 2) ^ 2)%Z
    with (9000000000 * 9000000000)%Z.
  change (3 / 2)%Z with 1%Z. rewrite mult_IZR, sqrt_square by lra.
  field.
Qed.

Lemma r_p_entry_np_far px :
  r_p_entry_np 9000000001 1 px 1 1
  = Fin (sqrt 7213023705161793536 * px).
Proof.
  unfold r_p_entry_np.
  change (wrap_int64
            (wrap_int64 (wrap_int64 (1 - 9000000001) ^ 2)
             + wrap_int64 (wrap_int64 (wrap_int64 (1 - 1) ^ 2) + 0)))
    with 7213023705161793536%Z.
  reflexivity.
Qed.

Lemma sqrt_wrapped_bounds : 0 <= sqrt 7213023705161793536 < 3000000000.
Proof.
  split; [apply sqrt_pos|].
  rewrite <- (sqrt_square 3000000000) by lra.
  apply sqrt_lt_1_alt. lra.
Qed.

Lemma draw_transit_np_returns_far phase dp prs :
  length prs = length dp -> prs <> [] ->
  draw_transit_np ellipse_geom 1 0 phase 3 (Some dp) (Some prs) (Some 1)
  = Ok (gtabulate 3 (flux_entry_np ellipse_geom 1 0 phase 3),
        gtabulate 3
          (density_entry_np 1 0 phase 3 (Some dp) (Some prs) (Some 1))).
Proof.
  intros Hlen Hne. apply draw_transit_np_returns.
  apply draw_transit_returns; [lia| |assumption|assumption].
  change (3 / 2)%Z with 1%Z. lra.
Qed.

(** There the code interpolates at the wrapped radius. *)
Lemma density_entry_far dp prs :
  density_entry_np 1 0 3000000000 3 (Some dp) (Some prs) (Some 1) 1 1
  = Fin (interp_eval 0 (sort_samples (combine prs (column_density dp)))
           (sqrt 7213023705161793536)).
Proof.
  unfold density_entry_np. rewrite x_p_far, y_p_centre.
  change (3 / 2)%Z with 1%Z. rewrite r_p_entry_np_far.
  cbn [np_interp_call]. do 2 f_equal. field.
Qed.

(** The interpolant of two samples, the first at 0. *)
Lemma interpolant_two_nodes a y0 y1 r v :
  0 < a -> linear_interpolant [(0, y0); (a, y1)] r v ->
  0 <= r <= a /\ v = y0 + (y1 - y0) / a * r.
Proof.
  intros Ha [H|(x0 & b0 & x1 & b1 & H0 & H1 & Hr & _ & ->)].
  - destruct H as [H|[H|[]]]; injection H as <- <-;
      (split; [lra|field; lra]).
  - destruct H0 as [H0|[H0|[]]]; injection H0 as <- <-;
      destruct H1 as [H1|[H1|[]]]; injection H1 as <- <-;
      try (exfalso; lra).
    split; [lra|field; lra].
Qed.

Lemma array_min_0 a : 0 <= a -> array_min [0; a] = 0.
Proof. intros H. simpl. now apply Rmin_right. Qed.

Lemma array_max_0 a : 0 <= a -> array_max [0; a] = a.
Proof. intros H. simpl. now apply Rmax_left. Qed.

(** The value of the wrapped interpolation between two samples, the first
    at radius 0 and the second at a radius [a] beyond the wrapped one. *)
Lemma interp_far a d0 d1 :
  3000000000 <= a ->
  interp_eval 0 (sort_samples (combine [0; a] (column_density [d0; d1])))
    (sqrt 7213023705161793536)
  = 4 * d0 + (4 * d1 - 4 * d0) / a * sqrt 7213023705161793536.
Proof.
  intros Ha. pose proof sqrt_wrapped_bounds as Hs.
  assert (Hi : linear_interpolant [(0, 4 * d0); (a, 4 * d1)]
                 (sqrt 7213023705161793536)
                 (interp_eval 0
                    (sort_samples (combine [0; a] (column_density [d0; d1])))
                    (sqrt 7213023705161793536))).
  { rewrite column_density_four.
    apply (interp_eval_inside 0 [(0, 4 * d0); (a, 4 * d1)]); [discriminate|].
    cbn [map fst]. rewrite array_min_0, array_max_0 by lra. lra. }
  apply interpolant_two_nodes in Hi; [|lra]. tauto.
Qed.

(** C1, as stated, fails, in two ways.  For the profile [[1; 1]] sampled at
    the radii [[0; 1]], the centre pixel has physical radius 0, within the
    range, and its density is not the interpolant of twice the profile (it
    is 4, not 2).  And at a phase of [3e9] the squared offset of the centre
    pixel wraps around: its radius, [9e9], is within the radii [[0; 9e9]],
    but the code interpolates at the wrapped radius and the entry is below
    2, the interpolant neither of twice nor of four times the profile
    [[0; 1]] at the pixel's radius. *)
Lemma density_map_is_not_twice_profile :
  (exists flux dens,
      draw_transit_np ellipse_geom 1 0 0 3 (Some [1; 1]) (Some [0; 1])
        (Some 1)
      = Ok (flux, dens)
      /\ in_grid 3 1 1
      /\ array_min [0; 1] <= physical_radius 1 0 0 3 1 1 1
                          <= array_max [0; 1]
      /\ entry_at dens 1 1 = Some (Fin 4)
      /\ ~ linear_interpolant (combine [0; 1] (map (fun v => 2 * v) [1; 1]))
             (physical_radius 1 0 0 3 1 1 1) 4)
  /\ (exists flux dens v,
        draw_transit_np ellipse_geom 1 0 3000000000 3 (Some [0; 1])
          (Some [0; 9000000000]) (Some 1)
        = Ok (flux, dens)
        /\ in_grid 3 1 1
        /\ array_min [0; 9000000000]
           <= physical_radius 1 0 3000000000 3 1 1 1
           <= array_max [0; 9000000000]
        /\ entry_at dens 1 1 = Some (Fin v)
        /\ v < 2
        /\ ~ linear_interpolant
               (combine [0; 9000000000] (map (fun v => 2 * v) [0; 1]))
               (physical_radius 1 0 3000000000 3 1 1 1) v
        /\ ~ linear_interpolant
               (combine [0; 9000000000] (map (fun v => 4 * v) [0; 1]))
               (physical_radius 1 0 3000000000 3 1 1 1) v).
Proof.
  split.
  - destruct (draw_transit_np_returns_3 [1; 1] 1 eq_refl)
      as (flux & dens & E).
    exists flux, dens. split; [exact E|].
    split; [exact in_grid_3_centre|]. split; [exact (in_range_3 1)|].
    split.
    + rewrite (density_centre_3_np _ _ _ _ E). do 2 f_equal. lra.
    + rewrite physical_radius_centre_3. cbn [map combine].
      intros H2. apply interpolant_two_nodes_at_first in H2. lra.
  - pose proof sqrt_wrapped_bounds as Hs.
    pose proof (interp_far 9000000000 0 1 ltac:(lra)) as Hv.
    set (v := interp_eval 0
                (sort_samples
                   (combine [0; 9000000000] (column_density [0; 1])))
                (sqrt 7213023705161793536)) in *.
    assert (Hlt : v < 2) by lra.
    eexists _, _, v.
    split; [apply draw_transit_np_returns_far; [reflexivity|discriminate]|].
    split; [exact in_grid_3_centre|].
    rewrite physical_radius_far, array_min_0, array_max_0 by lra.
    split; [lra|]. split.
    + rewrite entry_at_gtabulate by exact in_grid_3_centre.
      now rewrite density_entry_far.
    + split; [exact Hlt|]. cbn [map combine].
      split; intros Hi; apply interpolant_two_nodes in Hi; lra.
Qed.

(** C1, amended, at the first of these inputs. *)
Lemma density_map_interpolates_four_times_witness :
  exists flux dens,
    draw_transit_np ellipse_geom 1 0 0 3 (Some [1; 1]) (Some [0; 1])
      (Some 1)
    = Ok (flux, dens)
    /\ exists v,
         entry_at dens 1 1 = Some (Fin v)
         /\ linear_interpolant (combine [0; 1] (map (fun v => 4 * v) [1; 1]))
              (physical_radius 1 0 0 3 1 1 1) v.
Proof.
  destruct (draw_transit_np_returns_3 [1; 1] 1 eq_refl) as (flux & dens & E).
  exists flux, dens. split; [exact E|].
  exact (density_map_interpolates_four_times ellipse_geom 1 0 0 3 [1; 1]
           [0; 1] 1 flux dens 1 1 E in_grid_3_centre
           (offsets_fit_int64_3 1 1 in_grid_3_centre) (in_range_3 1)).
Defined.



(** C4, as stated, fails: on a grid of one pixel the star has radius 0
    and covers no pixel, the normalisation is 0, and the one entry of the
    flux map is 0 / 0, which is NaN and not at least 0. *)
Lemma empty_star_flux_nan :
  exists flux dens,
    draw_transit_np ellipse_geom 1 0 0 1 None None None = Ok (flux, dens)
    /\ flux = [[NaN]]
    /\ ~ Forall (Forall (fun v => np_ge v 0)) flux.
Proof.
  assert (Hs : forall x y, star_mask ellipse_geom 1 x y = false).
  { intros x y. unfold star_mask, disk_mask, ellipse_geom. cbn [fst snd].
    change (1 / 2)%Z with 0%Z.
    destruct (Rlt_dec 0 ((0 + 0 - (0 - 0)) / 2)); [exfalso; lra|reflexivity]. }
  assert (Hn : star_norm ellipse_geom 1 = 0).
  { unfold star_norm.
    rewrite (tabulate_ext 1 _ (fun _ _ => 0))
      by (intros; rewrite Hs; simpl; lra).
    apply np_sum_tabulate_zero. }
  assert (He : flux_entry_np ellipse_geom 1 0 0 1 0 0 = NaN).
  { unfold flux_entry_np. rewrite Hn, Hs. unfold np_true_divide.
    destruct (Req_dec_T 0 0); [|exfalso; lra].
    destruct (Req_dec_T (pixel_value false * 1) 0) as [_|H];
      [reflexivity|exfalso; apply H; simpl; lra]. }
  assert (Hf : gtabulate 1 (flux_entry_np ellipse_geom 1 0 0 1) = [[NaN]]).
  { change (gtabulate 1 (flux_entry_np ellipse_geom 1 0 0 1))
      with [[flux_entry_np ellipse_geom 1 0 0 1 0 0]].
    now rewrite He. }
  eexists _, _. split.
  - apply draw_transit_np_returns.
    apply draw_transit_returns_no_profile; [lia|].
    change (1 / 2)%Z with 0%Z. lra.
  - split; [exact Hf|]. rewrite Hf. intros H.
    inversion H as [|? ? Hrow _]; subst. inversion Hrow as [|? ? Hv _]; subst.
    exact Hv.
Qed.

(** C4, amended, for a planet at the right limb of the star, part of which
    lies off the star. *)
Lemma flux_map_nonnegative_witness :
  exists flux dens,
    draw_transit_np ellipse_geom 1 0 (1 / 2) 3 None None None
    = Ok (flux, dens)
    /\ Forall (Forall (fun v => np_ge v 0)) flux.
Proof.
  eexists _, _.
  assert (E : draw_transit_np ellipse_geom 1 0 (1 / 2) 3 None None None
              = Ok (gtabulate 3 (flux_entry_np ellipse_geom 1 0 (1 / 2) 3),
                    gtabulate 3
                      (density_entry_np 1 0 (1 / 2) 3 None None None))).
  { apply draw_transit_np_returns.
    apply draw_transit_returns_no_profile; [lia|].
    change (3 / 2)%Z with 1%Z. lra. }
  split; [exact E|].
  exact (flux_map_nonnegative ellipse_geom 1 0 (1 / 2) 3 None None None
           _ _ star_nonempty_geom_3 E).
Defined.

(** C5, as stated, fails: at a phase of [3e9] the centre pixel lies [9e9]
    from the planet's centre, beyond the greatest radius [3e9] of the
    profile, but the squared offset wraps around, the code interpolates at
    the wrapped radius, which is within the profile, and the entry is 4,
    not 0. *)
Lemma wrapped_radius_inside_profile :
  exists flux dens,
    draw_transit_np ellipse_geom 1 0 3000000000 3 (Some [1; 1])
      (Some [0; 3000000000]) (Some 1)
    = Ok (flux, dens)
    /\ in_grid 3 1 1
    /\ outside_profile 1 0 3000000000 3 (Some [1; 1])
         (Some [0; 3000000000]) (Some 1) 1 1
    /\ entry_at dens 1 1 = Some (Fin 4)
    /\ entry_at dens 1 1 <> Some (Fin 0).
Proof.
  pose proof (interp_far 3000000000 1 1 ltac:(lra)) as Hv.
  assert (He : entry_at
                 (gtabulate 3
                    (density_entry_np 1 0 3000000000 3 (Some [1; 1])
                       (Some [0; 3000000000]) (Some 1))) 1 1
               = Some (Fin 4)).
  { rewrite entry_at_gtabulate by exact in_grid_3_centre.
    rewrite density_entry_far, Hv. do 2 f_equal. lra. }
  eexists _, _.
  split; [apply draw_transit_np_returns_far; [reflexivity|discriminate]|].
  split; [exact in_grid_3_centre|]. split.
  - cbn [outside_profile]. right.
    rewrite physical_radius_far, array_max_0 by lra. lra.
  - split; [exact He|]. rewrite He. intros H. injection H as H. lra.
Qed.

(** C5, amended, at the pixel above the centre, whose physical radius is 2,
    beyond the last sample at 1. *)
Lemma density_map_zero_outside_profile_witness :
  exists flux dens,
    draw_transit_np ellipse_geom 1 0 0 3 (Some [1; 1]) (Some [0; 1])
      (Some 2)
    = Ok (flux, dens)
    /\ entry_at dens 1 0 = Some (Fin 0).
Proof.
  destruct (draw_transit_np_returns_3 [1; 1] 2 eq_refl) as (flux & dens & E).
  exists flux, dens. split; [exact E|].
  apply (density_map_zero_outside_profile ellipse_geom 1 0 0 3 (Some [1; 1])
           (Some [0; 1]) (Some 2) flux dens 1 0 E).
  - split; lia.
  - intros _. apply offsets_fit_int64_3. split; lia.
  - cbn [outside_profile]. right.
    rewrite physical_radius_edge_3, array_max_0_1. lra.
Defined.






(** C9 for a cross-section that scales the profile, on a grid of two
    wavelengths. *)
Lemma transmission_preserves_shape_witness :
  shape (transmission (fun x _ _ => x)
           (fun f w0 _ phi => vmap (fun p => f * w0 ^ 2 * p) phi)
           1 1 1 1 (Array [1; 2]) 1 1)
  = ArrayShape 2.
Proof.
  apply (transmission_preserves_shape (fun x _ _ => x)
           (fun f w0 _ phi => vmap (fun p => f * w0 ^ 2 * p) phi)
           1 1 1 1 (Array [1; 2]) 1 1).
  intros f w0 alpha [v|a]; simpl; [reflexivity|now rewrite length_map].
Defined.

(** ** Inputs and outputs as heap objects *)

(** Running the primitives on a heap [h ++ ext]. *)
Lemma new_run h ext o :
  new o (h ++ ext) = Ok ((length h + length ext)%nat, h ++ (ext ++ [o])).
Proof. unfold new. now rewrite length_app, app_assoc. Qed.

Lemma nth_error_ext {A} (h ext : list A) k :
  nth_error (h ++ ext) (length h + k)%nat = nth_error ext k.
Proof. rewrite nth_error_app2 by lia. f_equal. lia. Qed.

Lemma read2_run (h ext : heap) k a :
  nth_error ext k = Some (Arr2 a) ->
  read2 (length h + k)%nat (h ++ ext) = Ok (a, h ++ ext).
Proof. intros H. unfold read2. now rewrite nth_error_ext, H. Qed.

Lemma read1_run (h ext : heap) k a :
  nth_error ext k = Some (Arr1 a) ->
  read1 (length h + k)%nat (h ++ ext) = Ok (a, h ++ ext).
Proof. intros H. unfold read1. now rewrite nth_error_ext, H. Qed.

Lemma read1_old h ext l a :
  nth_error h l = Some (Arr1 a) ->
  read1 l (h ++ ext) = Ok (a, h ++ ext).
Proof.
  intros H. unfold read1. rewrite nth_error_app1, H; [reflexivity|].
  apply nth_error_Some. congruence.
Qed.

Lemma update_ext (h ext : heap) k o :
  update (h ++ ext) (length h + k)%nat o = h ++ update ext k o.
Proof. induction h as [|x h IH]; simpl; [reflexivity|]. now rewrite IH. Qed.

Lemma write_run (h ext : heap) k o :
  write (length h + k)%nat o (h ++ ext) = Ok (tt, h ++ update ext k o).
Proof. unfold write. now rewrite update_ext. Qed.

Lemma unchanged_ext h ext : unchanged h (h ++ ext).
Proof. intros l Hl. now apply nth_error_app1. Qed.

(** The same under a bind. *)
Lemma bind_new {B} (h ext : heap) o (k : loc -> M B) :
  mbind (new o) k (h ++ ext)
  = k (length h + length ext)%nat (h ++ (ext ++ [o])).
Proof. unfold mbind. now rewrite new_run. Qed.

Lemma bind_read2 {B} (h ext : heap) i a (k : array2 -> M B) :
  nth_error ext i = Some (Arr2 a) ->
  mbind (read2 (length h + i)%nat) k (h ++ ext) = k a (h ++ ext).
Proof. intros H. unfold mbind. now rewrite (read2_run h ext i a H). Qed.

Lemma bind_read1 {B} (h ext : heap) i a (k : array1 -> M B) :
  nth_error ext i = Some (Arr1 a) ->
  mbind (read1 (length h + i)%nat) k (h ++ ext) = k a (h ++ ext).
Proof. intros H. unfold mbind. now rewrite (read1_run h ext i a H). Qed.

Lemma bind_read1_old {B} (h ext : heap) l a (k : array1 -> M B) :
  nth_error h l = Some (Arr1 a) ->
  mbind (read1 l) k (h ++ ext) = k a (h ++ ext).
Proof. intros H. unfold mbind. now rewrite (read1_old h ext l a H). Qed.

Lemma bind_write {B} (h ext : heap) i o (k : unit -> M B) :
  mbind (write (length h + i)%nat o) k (h ++ ext)
  = k tt (h ++ update ext i o).
Proof. unfold mbind. now rewrite write_run. Qed.

Lemma bind_lift {A B} (r : result A) (k : A -> M B) h :
  mbind (lift r) k h = match r with Ok a => k a h | Raise e => Raise e end.
Proof. unfold mbind, lift. now destruct r. Qed.

Lemma bind_ret {A B} (a : A) (k : A -> M B) h : mbind (ret a) k h = k a h.
Proof. reflexivity. Qed.

Lemma bind_assoc {A B C} (m : M A) (f : A -> M B) (g : B -> M C) h :
  mbind (mbind m f) g h = mbind m (fun a => mbind (f a) g) h.
Proof. unfold mbind. destruct (m h) as [[a h']|e]; reflexivity. Qed.

(** One step of a run, as often as it applies. *)
Ltac run :=
  repeat first
    [ rewrite bind_assoc
    | rewrite bind_new
    | rewrite bind_write
    | rewrite bind_ret
    | erewrite bind_read2 by reflexivity
    | erewrite bind_read1 by reflexivity
    | erewrite bind_read1_old by eassumption
    | progress cbn [length app update Nat.add nth_error] ].

Section HeapRefinement.
Variable ellipse : R -> R -> R -> R -> Z -> Z -> bool.

(** The heap reading of [draw_transit] fails as [draw_transit] does, and
    otherwise appends new objects, two of which hold its results. *)
Lemma draw_transit_heap_run ratio impact phase gs dpl prl dp pr ppr h :
  points_to h dpl dp -> points_to h prl pr ->
  match draw_transit ellipse ratio impact phase gs dp pr ppr with
  | Ok (flux, dens) =>
      exists kf kd ext,
        draw_transit_heap ellipse ratio impact phase gs dpl prl ppr (h ++ [])
        = Ok ((length h + kf, length h + kd)%nat, h ++ ext)
        /\ nth_error ext kf = Some (Arr2 flux)
        /\ nth_error ext kd = Some (Arr2 dens)
  | Raise e =>
      draw_transit_heap ellipse ratio impact phase gs dpl prl ppr (h ++ [])
      = Raise e
  end.
Proof.
  intros Hdp Hpr. unfold draw_transit, draw_transit_heap, _draw_disk_heap.
  rewrite bind_assoc, bind_lift. rewrite !_draw_disk_cases.
  destruct (gs <? 0)%Z; cbn [bind]; [reflexivity|].
  destruct (Rlt_dec (IZR (gs / 2)) 0); cbn [bind]; [reflexivity|].
  run.
  destruct dpl as [dpl|], dp as [dp|]; try contradiction;
    cbn [points_to] in Hdp.
  - rewrite bind_assoc, bind_lift.
    destruct ppr as [pprv|]; cbn [bind]; [|reflexivity].
    destruct (Req_dec_T (IZR (gs / 2) * ratio) 0); cbn [bind]; [reflexivity|].
    run. unfold interp1d_heap.
    destruct prl as [prl|], pr as [prs|]; try contradiction;
      cbn [points_to] in Hpr.
    + run. rewrite bind_lift.
      destruct (interp1d (Some prs) (column_density dp) 0) as [f|e];
        cbn [bind]; [|reflexivity].
      run. rewrite bind_lift.
      destruct (Rlt_dec (IZR (gs / 2) * ratio) 0); cbn [bind]; [reflexivity|].
      run.
      do 3 eexists. split; [reflexivity|]. split; reflexivity.
    + run. rewrite bind_lift. cbn [interp1d bind]. reflexivity.
  - run. rewrite bind_lift.
    destruct (Rlt_dec (IZR (gs / 2) * ratio) 0); cbn [bind]; [reflexivity|].
    run.
    do 3 eexists. split; [reflexivity|]. split; reflexivity.
Qed.

End HeapRefinement.

Lemma mbind_ok {A B} (m : M A) (k : A -> M B) h a h' :
  m h = Ok (a, h') -> mbind m k h = k a h'.
Proof. intros H. unfold mbind. now rewrite H. Qed.

Lemma load_run h v x : denotes h v x -> load v h = Ok (x, h).
Proof.
  destruct v as [a|l], x as [b|a']; simpl; try contradiction.
  - now intros ->.
  - intros H. unfold mbind, read1. now rewrite H.
Qed.

Lemma store_run (h ext : heap) x :
  exists out ext',
    store x (h ++ ext) = Ok (out, h ++ ext')
    /\ denotes (h ++ ext') out x /\ fresh_val h out.
Proof.
  destruct x as [b|a]; simpl.
  - exists (PyFloat b), ext. repeat split.
  - exists (PyArray (length h + length ext)%nat), (ext ++ [Arr1 a]).
    rewrite bind_new. repeat split.
    + simpl. rewrite nth_error_ext. rewrite nth_error_app2 by lia.
      now rewrite Nat.sub_diag.
    + simpl. unfold fresh. lia.
Qed.

Lemma ufunc_run (h ext : heap) f v x :
  denotes (h ++ ext) v x ->
  exists out ext',
    ufunc f v (h ++ ext) = Ok (out, h ++ ext')
    /\ denotes (h ++ ext') out (vmap f x) /\ fresh_val h out.
Proof.
  intros H. unfold ufunc. rewrite (mbind_ok _ _ _ _ _ (load_run _ _ _ H)).
  apply store_run.
Qed.

Lemma vmap_vmap f g x : vmap g (vmap f x) = vmap (fun a => g (f a)) x.
Proof. destruct x; simpl; [reflexivity|now rewrite map_map]. Qed.

Lemma transmission_heap_run voigt_profile cross_section cell_density
  cell_temperature oscillator_strength einstein_coeff wavelength_grid wg
  reference_wavelength particle_mass h :
  denotes h wavelength_grid wg ->
  exists out ext,
    transmission_heap voigt_profile cross_section cell_density
      cell_temperature oscillator_strength einstein_coeff wavelength_grid
      reference_wavelength particle_mass (h ++ [])
    = Ok (out, h ++ ext)
    /\ denotes (h ++ ext) out
         (transmission voigt_profile cross_section cell_density
            cell_temperature oscillator_strength einstein_coeff wg
            reference_wavelength particle_mass)
    /\ fresh_val h out.
Proof.
  intros H. unfold transmission_heap, transmission.
  set (w0 := reference_wavelength).
  set (alpha := alpha_lambda cell_temperature w0 particle_mass).
  set (gamma := gamma_lambda einstein_coeff w0).
  rewrite <- (app_nil_r h) in H.
  destruct (ufunc_run h [] (fun w => w - w0) _ _ H)
    as (v1 & e1 & E1 & D1 & _).
  rewrite (mbind_ok _ _ _ _ _ E1).
  destruct (ufunc_run h e1 (fun x => voigt_profile x alpha gamma) _ _ D1)
    as (v2 & e2 & E2 & D2 & _).
  rewrite (mbind_ok _ _ _ _ _ E2). rewrite vmap_vmap in D2.
  rewrite (mbind_ok _ _ _ _ _ (load_run _ _ _ D2)).
  destruct (store_run h e2
              (cross_section oscillator_strength w0 alpha
                 (vmap (fun a => voigt_profile (a - w0) alpha gamma) wg)))
    as (v3 & e3 & E3 & D3 & _).
  rewrite (mbind_ok _ _ _ _ _ E3).
  destruct (ufunc_run h e3 (fun s => s * cell_density) _ _ D3)
    as (v4 & e4 & E4 & D4 & F4).
  rewrite (mbind_ok _ _ _ _ _ E4). cbn [ret].
  exists v4, e4. repeat split; assumption.
Qed.

Lemma points_to_unchanged h h' l a :
  unchanged h h' -> points_to h l a -> points_to h' l a.
Proof.
  intros U. destruct l as [l|], a as [a|]; simpl; try tauto.
  intros H. rewrite U; [assumption|]. apply nth_error_Some. congruence.
Qed.

(** A new location is not the location of an argument. *)
Lemma fresh_not_argument h l arg a :
  fresh h l -> points_to h arg a -> arg <> Some l.
Proof.
  unfold fresh. intros Hl H ->. destruct a as [a|]; simpl in H; [|tauto].
  assert (l < length h)%nat by (apply nth_error_Some; congruence). lia.
Qed.

Lemma fresh_val_not_operand h out l x :
  fresh_val h out -> denotes h (PyArray l) x -> out <> PyArray l.
Proof.
  intros Hf H ->. simpl in Hf. unfold fresh in Hf.
  destruct x as [b|a]; simpl in H; [contradiction|].
  assert (l < length h)%nat by (apply nth_error_Some; congruence). lia.
Qed.

(** C10: neither operation changes an object of the caller's heap, so the
    arrays passed as [density_profile], [profile_radius] and
    [wavelength_grid] hold after the call what they held before it; the
    arrays returned are new objects, at locations that held nothing before
    the call, so they alias no input; and they hold the results of
    [draw_transit] and [transmission]. *)
Theorem inputs_unchanged_outputs_fresh :
  (forall ellipse ratio impact phase gs dpl prl dp pr ppr h fl dl h',
      points_to h dpl dp -> points_to h prl pr ->
      draw_transit_heap ellipse ratio impact phase gs dpl prl ppr h
      = Ok ((fl, dl), h') ->
      unchanged h h'
      /\ points_to h' dpl dp /\ points_to h' prl pr
      /\ fresh h fl /\ fresh h dl
      /\ dpl <> Some fl /\ dpl <> Some dl
      /\ prl <> Some fl /\ prl <> Some dl
      /\ exists flux dens,
           draw_transit ellipse ratio impact phase gs dp pr ppr
           = Ok (flux, dens)
           /\ nth_error h' fl = Some (Arr2 flux)
           /\ nth_error h' dl = Some (Arr2 dens))
  /\ (forall voigt_profile cross_section cell_density cell_temperature
         oscillator_strength einstein_coeff wavelength_grid wg
         reference_wavelength particle_mass h,
      denotes h wavelength_grid wg ->
      exists out h',
        transmission_heap voigt_profile cross_section cell_density
          cell_temperature oscillator_strength einstein_coeff
          wavelength_grid reference_wavelength particle_mass h
        = Ok (out, h')
        /\ unchanged h h'
        /\ denotes h' wavelength_grid wg
        /\ fresh_val h out
        /\ (forall l, wavelength_grid = PyArray l -> out <> PyArray l)
        /\ denotes h' out
             (transmission voigt_profile cross_section cell_density
                cell_temperature oscillator_strength einstein_coeff wg
                reference_wavelength particle_mass)).
Proof.
  split.
  - intros ellipse ratio impact phase gs dpl prl dp pr ppr h fl dl h' Hdp Hpr E.
    pose proof (draw_transit_heap_run ellipse ratio impact phase gs
                  dpl prl dp pr ppr h Hdp Hpr) as Hrun.
    rewrite app_nil_r in Hrun.
    destruct (draw_transit ellipse ratio impact phase gs dp pr ppr)
      as [[flux dens]|e]; [|congruence].
    destruct Hrun as (kf & kd & ext & E' & Hf & Hd).
    rewrite E' in E. injection E as <- <- <-.
    assert (U : unchanged h (h ++ ext)) by apply unchanged_ext.
    split; [exact U|].
    split; [now apply (points_to_unchanged h)|].
    split; [now apply (points_to_unchanged h)|].
    assert (Ff : fresh h (length h + kf)%nat) by (unfold fresh; lia).
    assert (Fd : fresh h (length h + kd)%nat) by (unfold fresh; lia).
    split; [exact Ff|]. split; [exact Fd|].
    split; [exact (fresh_not_argument _ _ _ _ Ff Hdp)|].
    split; [exact (fresh_not_argument _ _ _ _ Fd Hdp)|].
    split; [exact (fresh_not_argument _ _ _ _ Ff Hpr)|].
    split; [exact (fresh_not_argument _ _ _ _ Fd Hpr)|].
    exists flux, dens. split; [reflexivity|].
    now rewrite !nth_error_ext.
  - intros voigt_profile cross_section cell_density cell_temperature
      oscillator_strength einstein_coeff wavelength_grid wg
      reference_wavelength particle_mass h H.
    destruct (transmission_heap_run voigt_profile cross_section cell_density
                cell_temperature oscillator_strength einstein_coeff
                wavelength_grid wg reference_wavelength particle_mass h H)
      as (out & ext & E & D & F).
    rewrite app_nil_r in E. exists out, (h ++ ext).
    split; [exact E|]. split; [apply unchanged_ext|].
    split; [|split; [assumption|split; [|assumption]]].
    + destruct wavelength_grid as [a|l], wg as [b|a']; simpl in *;
        try contradiction; [assumption|].
      rewrite nth_error_app1; [assumption|].
      apply nth_error_Some. congruence.
    + intros l ->. exact (fresh_val_not_operand _ _ _ _ F H).
Qed.

(** C10 on an empty heap for [draw_transit], and on a heap that holds one
    grid of two wavelengths for [transmission]. *)
Lemma inputs_unchanged_outputs_fresh_witness :
  (exists fl dl h',
      draw_transit_heap ellipse_geom 1 0 0 3 None None None []
      = Ok ((fl, dl), h')
      /\ unchanged [] h' /\ fresh [] fl /\ fresh [] dl)
  /\ (exists out h',
        transmission_heap (fun x _ _ => x)
          (fun f w0 _ phi => vmap (fun p => f * w0 ^ 2 * p) phi)
          1 1 1 1 (PyArray 0%nat) 1 1 [Arr1 [1; 2]]
        = Ok (out, h')
        /\ unchanged [Arr1 [1; 2]] h'
        /\ denotes h' (PyArray 0%nat) (Array [1; 2])
        /\ fresh_val [Arr1 [1; 2]] out).
Proof.
  split.
  - pose proof (draw_transit_heap_run ellipse_geom 1 0 0 3 None None None
                  None None [] I I) as Hrun.
    destruct (draw_transit_returns_no_profile ellipse_geom 1 0 0 3 None None)
      as (flux & dens & E); [lia|change (3 / 2)%Z with 1%Z; lra|].
    rewrite E in Hrun. destruct Hrun as (kf & kd & ext & Er & _ & _).
    cbn [app length Nat.add] in Er.
    exists kf, kd, ext. split; [exact Er|].
    destruct (proj1 inputs_unchanged_outputs_fresh ellipse_geom 1 0 0 3%Z
                None None None None None [] kf kd ext I I Er)
      as (U & _ & _ & Ff & Fd & _).
    split; [exact U|]. split; [exact Ff|exact Fd].
  - destruct (proj2 inputs_unchanged_outputs_fresh (fun x _ _ => x)
                (fun f w0 _ phi => vmap (fun p => f * w0 ^ 2 * p) phi)
                1 1 1 1 (PyArray 0%nat) (Array [1; 2]) 1 1 [Arr1 [1; 2]]
                eq_refl)
      as (out & h' & E & U & D & F & _ & _).
    exists out, h'. split; [exact E|]. split; [exact U|].
    split; [exact D|exact F].
Defined.

(** * Further properties of the code *)

(** ** The planet's centre pixel *)

(** Half of an integer, floored, is the integer division by two. *)
Lemma Zfloor_half a : Zfloor (IZR a / 2) = (a / 2)%Z.
Proof.
  apply Zfloor_eq.
  pose proof (Z.div_mod a 2 ltac:(lia)) as Hd.
  pose proof (Z.mod_pos_bound a 2 ltac:(lia)) as Hm.
  assert (Ha : IZR a = 2 * IZR (a / 2) + IZR (a mod 2)).
  { rewrite Hd at 1. now rewrite plus_IZR, mult_IZR. }
  assert (0 <= IZR (a mod 2)) by (apply IZR_le; lia).
  assert (IZR (a mod 2) <= 1) by (apply IZR_le; lia).
  lra.
Qed.

(** [int] is odd and monotone. *)
Lemma py_int_opp v : py_int (- v) = (- py_int v)%Z.
Proof.
  unfold py_int, Zceil.
  destruct (Rle_dec 0 v) as [Hv|Hv]; destruct (Rle_dec 0 (- v)) as [Hn|Hn].
  - assert (v = 0) by lra. subst v. rewrite Ropp_0. 
    change 0 with (IZR 0). rewrite ZfloorZ. reflexivity.
  - rewrite Ropp_involutive. lia.
  - lia.
  - exfalso. lra.
Qed.

Lemma py_int_le a b : a <= b -> (py_int a <= py_int b)%Z.
Proof.
  intros Hab. unfold py_int.
  destruct (Rle_dec 0 a) as [Ha|Ha]; destruct (Rle_dec 0 b) as [Hb|Hb].
  - now apply Zfloor_le.
  - exfalso. lra.
  - apply Z.le_trans with 0%Z.
    + unfold Zceil.
      assert (0 <= Zfloor (- a))%Z by (apply Zfloor_lub; lra). lia.
    + apply Zfloor_lub. exact Hb.
  - now apply Zceil_le.
Qed.

Lemma py_int_half_nonneg gs : (0 <= gs)%Z -> py_int (IZR gs / 2) = (gs / 2)%Z.
Proof.
  intros H. unfold py_int.
  assert (0 <= IZR gs) by (now apply IZR_le).
  destruct (Rle_dec 0 (IZR gs / 2)) as [_|Hn]; [apply Zfloor_half|].
  exfalso. lra.
Qed.

(** X1: the phases -1/2, 0 and +1/2 put the planet's centre on the left
    limb of the star, on its centre and on its right limb, as the
    docstring says: the star is centred at [grid_size // 2] with that
    radius. *)
Theorem phase_limb_positions grid_size :
  (0 <= grid_size)%Z ->
  let star_radius := (grid_size / 2)%Z in
  x_p grid_size (- (1 / 2)) = (star_radius - star_radius)%Z
  /\ x_p grid_size 0 = star_radius
  /\ x_p grid_size (1 / 2) = (star_radius + star_radius)%Z.
Proof.
  intros H. cbv zeta. unfold x_p.
  replace (- (1 / 2) * IZR grid_size) with (- (IZR grid_size / 2)) by lra.
  replace (1 / 2 * IZR grid_size) with (IZR grid_size / 2) by lra.
  replace (0 * IZR grid_size) with (IZR 0) by lra.
  rewrite py_int_opp, py_int_half_nonneg, py_int_IZR by assumption.
  lia.
Qed.

Lemma phase_limb_positions_witness :
  x_p 101 (- (1 / 2)) = (50 - 50)%Z /\ x_p 101 0 = 50%Z
  /\ x_p 101 (1 / 2) = (50 + 50)%Z.
Proof. apply (phase_limb_positions 101). lia. Defined.

(** X2: the vertical offset is floored, so the impact parameters +1 and -1
    are not mirror images: +1 puts the centre on the lower limb,
    [2 * (grid_size // 2)], and -1 puts it at [-(grid_size mod 2)], one
    pixel beyond the upper limb when the grid size is odd. *)
Theorem impact_limb_positions grid_size :
  y_p grid_size 1 = (2 * (grid_size / 2))%Z
  /\ y_p grid_size (- (1)) = (- (grid_size mod 2))%Z.
Proof.
  rewrite !y_p_floor.
  replace (1 * IZR grid_size / 2) with (IZR grid_size / 2) by lra.
  replace (- (1) * IZR grid_size / 2) with (IZR (- grid_size) / 2)
    by (rewrite opp_IZR; lra).
  rewrite !Zfloor_half.
  pose proof (Z.div_mod grid_size 2 ltac:(lia)).
  pose proof (Z.div_mod (- grid_size) 2 ltac:(lia)).
  pose proof (Z.mod_pos_bound grid_size 2 ltac:(lia)).
  pose proof (Z.mod_pos_bound (- grid_size) 2 ltac:(lia)).
  lia.
Qed.

(** X3: on a grid of non-negative size the centre moves monotonically: a
    larger phase never moves it to the left, a larger impact parameter
    never moves it up. *)
Theorem planet_center_monotone grid_size phase phase' impact impact' :
  (0 <= grid_size)%Z -> phase <= phase' -> impact <= impact' ->
  (x_p grid_size phase <= x_p grid_size phase')%Z
  /\ (y_p grid_size impact <= y_p grid_size impact')%Z.
Proof.
  intros Hgs Hp Hi. assert (Hg : 0 <= IZR grid_size) by (now apply IZR_le).
  split.
  - unfold x_p. apply Z.add_le_mono_l. apply py_int_le. nra.
  - rewrite !y_p_floor. apply Z.add_le_mono_l. apply Zfloor_le. nra.
Qed.

Lemma planet_center_monotone_witness :
  (x_p 101 0 <= x_p 101 (1 / 2))%Z /\ (y_p 101 0 <= y_p 101 1)%Z.
Proof. apply (planet_center_monotone 101); [lia|lra|lra]. Defined.


(** ** The transmission profile *)

Lemma vmap_ext f g v : (forall a, f a = g a) -> vmap f v = vmap g v.
Proof.
  intros H. destruct v as [x|a]; simpl; [now rewrite H|].
  f_equal. now apply map_ext.
Qed.

(** X4: the absorption is proportional to the cell density: a density
    [k * cell_density] gives [k] times the absorption, entry by entry, and
    a density of zero gives zero at every wavelength. *)
Theorem absorption_proportional_to_density
  (voigt_profile : R -> R -> R -> R)
  (cross_section : R -> R -> R -> ndvalue -> ndvalue)
  (k cell_density cell_temperature oscillator_strength einstein_coeff : R)
  (wavelength_grid : ndvalue) (reference_wavelength particle_mass : R) :
  transmission voigt_profile cross_section (k * cell_density)
    cell_temperature oscillator_strength einstein_coeff wavelength_grid
    reference_wavelength particle_mass
  = vmap (fun a => k * a)
      (transmission voigt_profile cross_section cell_density
         cell_temperature oscillator_strength einstein_coeff wavelength_grid
         reference_wavelength particle_mass)
  /\ transmission voigt_profile cross_section 0
       cell_temperature oscillator_strength einstein_coeff wavelength_grid
       reference_wavelength particle_mass
     = vmap (fun _ => 0)
         (transmission voigt_profile cross_section cell_density
            cell_temperature oscillator_strength einstein_coeff
            wavelength_grid reference_wavelength particle_mass).
Proof.
  unfold transmission. rewrite !vmap_vmap.
  split; apply vmap_ext; intros a; ring.
Qed.

Lemma k_b_pos : 0 < k_b.
Proof. unfold k_b. lra. Qed.

(** X5: for a temperature that is not negative and a positive mass, the
    turbulent term adds 5/3 to the thermal 2, and the Doppler width is
    [w0 / c * sqrt (11 k_B T / (3 m))]; it is not negative when the
    reference wavelength is not. *)
Theorem alpha_lambda_closed_form cell_temperature reference_wavelength
  particle_mass :
  0 <= cell_temperature -> 0 < particle_mass ->
  alpha_lambda cell_temperature reference_wavelength particle_mass
  = reference_wavelength / c_speed
    * sqrt (11 * k_b * cell_temperature / (3 * particle_mass))
  /\ (0 <= reference_wavelength ->
      0 <= alpha_lambda cell_temperature reference_wavelength particle_mass).
Proof.
  intros HT Hm. pose proof k_b_pos as Hk. pose proof c_speed_pos as Hc.
  assert (Hx : 0 <= 5 * k_b * cell_temperature / 3 / particle_mass).
  { apply Rmult_le_pos; [|left; now apply Rinv_0_lt_compat]. nra. }
  assert (E : alpha_lambda cell_temperature reference_wavelength particle_mass
              = reference_wavelength / c_speed
                * sqrt (11 * k_b * cell_temperature / (3 * particle_mass))).
  { unfold alpha_lambda. rewrite pow2_sqrt by exact Hx.
    do 2 f_equal. field. lra. }
  split; [exact E|].
  intros Hw. rewrite E. apply Rmult_le_pos; [|apply sqrt_pos].
  apply Rmult_le_pos; [assumption|]. left. now apply Rinv_0_lt_compat.
Qed.

Lemma alpha_lambda_closed_form_witness :
  alpha_lambda 300 1 1 = 1 / c_speed * sqrt (11 * k_b * 300 / (3 * 1))
  /\ (0 <= 1 -> 0 <= alpha_lambda 300 1 1).
Proof. apply (alpha_lambda_closed_form 300 1 1); lra. Defined.

(** The difference of the two converted wavelengths, as one quotient. *)
Lemma gamma_lambda_quotient einstein_coeff reference_wavelength :
  c_speed / reference_wavelength - einstein_coeff / (4 * PI) / 2 <> 0 ->
  c_speed / reference_wavelength + einstein_coeff / (4 * PI) / 2 <> 0 ->
  gamma_lambda einstein_coeff reference_wavelength
  = c_speed * (einstein_coeff / (4 * PI))
    / ((c_speed / reference_wavelength) ^ 2
       - (einstein_coeff / (4 * PI)) ^ 2 / 4).
Proof.
  intros H1 H2. unfold gamma_lambda. cbn [map np_diff nth].
  replace (einstein_coeff / 4 / PI) with (einstein_coeff / (4 * PI))
    by (unfold Rdiv; rewrite Rinv_mult; ring).
  set (g := einstein_coeff / (4 * PI)) in *.
  set (nu0 := c_speed / reference_wavelength) in *.
  replace (- g / 2 + nu0) with (nu0 - g / 2) by lra.
  replace (g / 2 + nu0) with (nu0 + g / 2) by lra.
  replace (nu0 ^ 2 - g ^ 2 / 4) with ((nu0 - g / 2) * (nu0 + g / 2)) by field.
  replace g with ((nu0 + g / 2) - (nu0 - g / 2)) at 3 by lra.
  set (a := nu0 - g / 2) in *. set (b := nu0 + g / 2) in *.
  field. split; assumption.
Qed.

(** X6: an Einstein coefficient that is not negative and whose half-width
    stays below the reference frequency gives a Lorentzian width that is
    not negative; a zero coefficient gives a zero width. *)
Theorem gamma_lambda_nonnegative einstein_coeff reference_wavelength :
  0 < reference_wavelength ->
  0 <= einstein_coeff ->
  einstein_coeff / (4 * PI) / 2 < c_speed / reference_wavelength ->
  0 <= gamma_lambda einstein_coeff reference_wavelength
  /\ (einstein_coeff = 0 ->
      gamma_lambda einstein_coeff reference_wavelength = 0).
Proof.
  intros Hw HA Hlt. pose proof c_speed_pos as Hc. pose proof PI_RGT_0 as Hpi.
  assert (Hg : 0 <= einstein_coeff / (4 * PI)).
  { apply Rmult_le_pos; [assumption|]. left. apply Rinv_0_lt_compat. lra. }
  assert (Hnu : 0 < c_speed / reference_wavelength).
  { apply Rmult_lt_0_compat; [assumption|now apply Rinv_0_lt_compat]. }
  rewrite gamma_lambda_quotient by lra.
  set (g := einstein_coeff / (4 * PI)) in *.
  set (nu0 := c_speed / reference_wavelength) in *.
  assert (Hd : 0 < nu0 ^ 2 - g ^ 2 / 4) by nra.
  pose proof (Rinv_0_lt_compat _ Hd) as Hi.
  split.
  - apply Rmult_le_pos; [nra|lra].
  - intros E. assert (Eg : 0 = g) by (unfold g; rewrite E; field; lra).
    replace g with 0. unfold Rdiv. ring.
Qed.

Lemma gamma_lambda_nonnegative_witness :
  0 <= gamma_lambda (4 * PI * c_speed) 1
  /\ (4 * PI * c_speed = 0 -> gamma_lambda (4 * PI * c_speed) 1 = 0).
Proof.
  pose proof c_speed_pos as Hc. pose proof PI_RGT_0 as Hpi.
  apply (gamma_lambda_nonnegative (4 * PI * c_speed) 1).
  - lra.
  - nra.
  - replace (4 * PI * c_speed / (4 * PI) / 2) with (c_speed / 2)
      by (field; lra).
    lra.
Defined.

(** ** Outcomes of [draw_transit] *)

Section Outcomes.
Variable ellipse : R -> R -> R -> R -> Z -> Z -> bool.

(** X7: for a radius that is not negative, so that the corners handed to
    the rasteriser are ordered, [_draw_disk] fails exactly on a negative
    grid size, with the [ValueError] of the image constructor; otherwise
    it returns a square array of that size whose entries are 0 or
    [value]. *)
Theorem draw_disk_outcome gs center radius value :
  0 <= radius ->
  match _draw_disk ellipse gs center radius value with
  | Ok disk =>
      (0 <= gs)%Z
      /\ has_shape (Z.to_nat gs) (Z.to_nat gs) disk
      /\ all_entries (fun v => v = 0 \/ v = value) disk
  | Raise e => (gs < 0)%Z /\ e = ValueError
  end.
Proof.
  intros Hr. rewrite _draw_disk_cases.
  destruct (Z.ltb_spec gs 0) as [Hneg|Hpos]; [now split|].
  destruct (Rlt_dec radius 0); [exfalso; lra|].
  - split; [assumption|]. split; [apply has_shape_tabulate|].
    apply all_entries_tabulate_intro. intros x y.
    destruct (disk_mask ellipse center radius x y); simpl; [right|left]; lra.
Qed.

(** When a call with a density profile returns, and what it returns. *)
Lemma draw_transit_profile_iff ratio impact phase gs dp pr ppr flux dens :
  draw_transit ellipse ratio impact phase gs (Some dp) pr ppr
  = Ok (flux, dens)
  <-> (0 <= gs)%Z
      /\ exists prs pprv,
           pr = Some prs /\ ppr = Some pprv
           /\ 0 < IZR (gs / 2) * ratio
           /\ length prs = length dp /\ prs <> []
           /\ flux = tabulate gs (flux_entry ellipse ratio impact phase gs)
           /\ dens = tabulate gs (fun x y =>
                       interp_eval 0
                         (sort_samples (combine prs (column_density dp)))
                         (physical_radius ratio impact phase gs pprv x y)).
Proof.
  split.
  - intros H. destruct (draw_transit_flux _ _ _ _ _ _ _ _ _ _ H) as [Hgs Hf].
    split; [assumption|].
    destruct (draw_transit_Ok _ _ _ _ _ _ _ _ _ _ H) as [_ Hpr].
    destruct (draw_transit_density _ _ _ _ _ _ _ _ _ _ H)
      as (prs & pprv & -> & -> & Hlen & Hne & Hd).
    exists prs, pprv. repeat (split; [try reflexivity; try assumption|]);
      try assumption.
    destruct (Rle_lt_or_eq_dec _ _ Hpr) as [|E]; [assumption|exfalso].
    unfold draw_transit in H. rewrite !_draw_disk_cases in H.
    destruct (gs <? 0)%Z; [discriminate|].
    destruct (Rlt_dec (IZR (gs / 2)) 0); [discriminate|].
    cbn [bind] in H.
    destruct (Req_dec_T (IZR (gs / 2) * ratio) 0); [discriminate|].
    congruence.
  - intros (Hgs & prs & pprv & -> & -> & Hr & Hlen & Hne & -> & ->).
    pose proof (star_radius_nonneg gs Hgs) as Hsr.
    unfold draw_transit.
    rewrite !_draw_disk_tabulate by (assumption || lra).
    cbn [bind].
    destruct (Req_dec_T (IZR (gs / 2) * ratio) 0); [exfalso; lra|].
    cbn [bind]. unfold interp1d. rewrite column_density_length.
    destruct (Nat.eqb_spec (length prs) (length dp)); [|contradiction].
    destruct (Nat.eqb_spec (length prs) 0) as [E|].
    { destruct prs; [congruence|discriminate]. }
    cbn [negb bind]. rewrite r_p_tabulate. unfold clip_min.
    rewrite !amap_tabulate, amap2_tabulate, amap_tabulate. reflexivity.
Qed.



End Outcomes.

Lemma draw_disk_outcome_witness :
  match _draw_disk ellipse_geom 3 (1, 1) 1 1 with
  | Ok disk =>
      (0 <= 3)%Z
      /\ has_shape (Z.to_nat 3) (Z.to_nat 3) disk
      /\ all_entries (fun v => v = 0 \/ v = 1) disk
  | Raise e => (3 < 0)%Z /\ e = ValueError
  end.
Proof. apply (draw_disk_outcome ellipse_geom 3 (1, 1) 1 1). lra. Defined.




(** ** The flux map, pixel by pixel *)

Lemma sum_map_minus {A} (f g : A -> R) (l : list A) :
  np_sum1 (map (fun a => f a - g a) l)
  = np_sum1 (map f l) - np_sum1 (map g l).
Proof. induction l as [|a l IH]; simpl; [lra|]. rewrite IH. lra. Qed.

Lemma np_sum_tabulate_minus n f g :
  np_sum (tabulate n (fun x y => f x y - g x y))
  = np_sum (tabulate n f) - np_sum (tabulate n g).
Proof.
  rewrite !np_sum_tabulate. rewrite <- sum_map_minus. f_equal.
  apply map_ext. intros y. unfold row_sum. apply sum_map_minus.
Qed.

Lemma np_sum_tabulate_ext_in n f g :
  (forall x y, in_grid n x y -> f x y = g x y) ->
  np_sum (tabulate n f) = np_sum (tabulate n g).
Proof.
  intros H. apply np_sum_tabulate_eq_iff; [|assumption].
  intros x y Hin. right. now apply H.
Qed.

Section FluxPixels.
Variable ellipse : R -> R -> R -> R -> Z -> Z -> bool.

Lemma star_norm_count gs :
  star_norm ellipse gs
  = np_sum (tabulate gs (fun x y => pixel_value (star_mask ellipse gs x y))).
Proof.
  unfold star_norm. f_equal. apply tabulate_ext. intros. lra.
Qed.

Lemma star_norm_inv_nonneg gs : 0 <= / star_norm ellipse gs.
Proof.
  destruct (Rle_lt_or_eq_dec _ _ (star_norm_nonneg ellipse gs)) as [H|<-].
  - left. now apply Rinv_0_lt_compat.
  - rewrite Rinv_0. lra.
Qed.

(** An entry of the flux map, by the masks of the two disks. *)
Lemma flux_entry_cases ratio impact phase gs x y :
  in_grid gs x y ->
  flux_entry ellipse ratio impact phase gs x y
  = if andb (star_mask ellipse gs x y)
         (negb (planet_mask ellipse ratio impact phase gs x y))
    then 1 / star_norm ellipse gs else 0.
Proof.
  intros Hin. unfold flux_entry.
  pose proof (star_norm_inv_nonneg gs) as Hi. unfold Rdiv.
  destruct (star_mask ellipse gs x y) eqn:Es,
    (planet_mask ellipse ratio impact phase gs x y); simpl.
  - rewrite Rmax_right; lra.
  - rewrite Rmax_left; lra.
  - rewrite Rmax_right; lra.
  - rewrite Rmax_right; lra.
Qed.

(** X10: where the star covers a pixel at least, a returned flux map takes
    two values only: [1 / norm] on the star pixels that the planet leaves
    uncovered, where [norm] is the number of star pixels, and 0 everywhere
    else. *)
Theorem flux_map_two_values ratio impact phase gs dp pr ppr flux dens x y :
  star_nonempty ellipse gs ->
  draw_transit ellipse ratio impact phase gs dp pr ppr = Ok (flux, dens) ->
  in_grid gs x y ->
  entry flux x y
  = if andb (star_mask ellipse gs x y)
         (negb (planet_mask ellipse ratio impact phase gs x y))
    then 1 / star_norm ellipse gs else 0.
Proof.
  intros _ H Hin. apply draw_transit_flux in H. destruct H as [_ ->].
  destruct Hin as [Hx Hy]. rewrite entry_tabulate by assumption.
  apply flux_entry_cases. now split.
Qed.

(** X11: the occulted flux is the covered share of the star: the flux map
    sums to one minus the number of star pixels under the planet over the
    number of star pixels. *)
Theorem flux_sum_closed_form ratio impact phase gs dp pr ppr flux dens :
  star_nonempty ellipse gs ->
  draw_transit ellipse ratio impact phase gs dp pr ppr = Ok (flux, dens) ->
  np_sum flux
  = 1 - covered_count ellipse ratio impact phase gs / star_norm ellipse gs.
Proof.
  intros Hstar H. pose proof (star_norm_pos ellipse gs Hstar) as Hn.
  apply draw_transit_flux in H. destruct H as [_ ->].
  rewrite (np_sum_tabulate_ext_in gs _
             (fun x y =>
                (pixel_value (star_mask ellipse gs x y)
                 - pixel_value
                     (andb (star_mask ellipse gs x y)
                        (planet_mask ellipse ratio impact phase gs x y)))
                * / star_norm ellipse gs)).
  - rewrite np_sum_tabulate_scale, np_sum_tabulate_minus.
    rewrite <- star_norm_count. unfold covered_count. field. lra.
  - intros x y Hin. rewrite flux_entry_cases by assumption.
    destruct (star_mask ellipse gs x y),
      (planet_mask ellipse ratio impact phase gs x y); simpl; lra.
Qed.

(** X12: the flux map does not depend on the density profile: a call that
    returns leaves the flux map of the same call without a profile, whose
    density map is zero. *)
Theorem flux_map_ignores_density_profile ratio impact phase gs dp pr ppr
  pr' ppr' flux dens :
  draw_transit ellipse ratio impact phase gs dp pr ppr = Ok (flux, dens) ->
  exists zeros,
    draw_transit ellipse ratio impact phase gs None pr' ppr'
    = Ok (flux, zeros)
    /\ all_entries (fun v => v = 0) zeros.
Proof.
  intros H. destruct (draw_transit_Ok _ _ _ _ _ _ _ _ _ _ H) as [_ Hpr].
  apply draw_transit_flux in H. destruct H as [Hgs ->].
  destruct (draw_transit_returns_no_profile ellipse ratio impact phase gs
              pr' ppr' Hgs Hpr) as (flux' & dens' & E).
  exists dens'.
  destruct (draw_transit_flux _ _ _ _ _ _ _ _ _ _ E) as [_ Hf].
  pose proof (draw_transit_no_profile _ _ _ _ _ _ _ _ _ E) as Hd.
  subst flux' dens'. split; [exact E|].
  apply all_entries_tabulate_intro. reflexivity.
Qed.

End FluxPixels.

Lemma flux_map_two_values_witness :
  exists flux dens,
    draw_transit ellipse_geom 1 0 0 3 None None None = Ok (flux, dens)
    /\ entry flux 1 1
       = if andb (star_mask ellipse_geom 3 1 1)
              (negb (planet_mask ellipse_geom 1 0 0 3 1 1))
         then 1 / star_norm ellipse_geom 3 else 0.
Proof.
  destruct (draw_transit_returns_no_profile ellipse_geom 1 0 0 3 None None)
    as (flux & dens & E); [lia|change (3 / 2)%Z with 1%Z; lra|].
  exists flux, dens. split; [exact E|].
  exact (flux_map_two_values ellipse_geom 1 0 0 3 None None None flux dens
           1 1 star_nonempty_geom_3 E in_grid_3_centre).
Defined.

Lemma flux_sum_closed_form_witness :
  exists flux dens,
    draw_transit ellipse_geom 1 0 0 3 None None None = Ok (flux, dens)
    /\ np_sum flux
       = 1 - covered_count ellipse_geom 1 0 0 3 / star_norm ellipse_geom 3.
Proof.
  destruct (draw_transit_returns_no_profile ellipse_geom 1 0 0 3 None None)
    as (flux & dens & E); [lia|change (3 / 2)%Z with 1%Z; lra|].
  exists flux, dens. split; [exact E|].
  exact (flux_sum_closed_form ellipse_geom 1 0 0 3 None None None flux dens
           star_nonempty_geom_3 E).
Defined.

Lemma flux_map_ignores_density_profile_witness :
  exists flux dens zeros,
    draw_transit ellipse_geom 1 0 0 3 (Some [1; 1]) (Some [0; 1]) (Some 1)
    = Ok (flux, dens)
    /\ draw_transit ellipse_geom 1 0 0 3 None None None = Ok (flux, zeros)
    /\ all_entries (fun v => v = 0) zeros.
Proof.
  destruct (draw_transit_returns_3 [1; 1] 1 eq_refl) as (flux & dens & E).
  destruct (flux_map_ignores_density_profile ellipse_geom 1 0 0 3
              (Some [1; 1]) (Some [0; 1]) (Some 1) None None flux dens E)
    as (zeros & E0 & Hz).
  exists flux, dens, zeros. split; [exact E|]. split; [exact E0|exact Hz].
Defined.


(** ** The density map under changes of its inputs *)

Lemma insert_sample_scale_y k p l :
  insert_sample (scale_y k p) (map (scale_y k) l)
  = map (scale_y k) (insert_sample p l).
Proof.
  induction l as [|q t IH]; simpl; [reflexivity|].
  destruct (Rle_dec (fst p) (fst q)); simpl; [reflexivity|].
  now rewrite IH.
Qed.

Lemma sort_samples_scale_y k l :
  sort_samples (map (scale_y k) l) = map (scale_y k) (sort_samples l).
Proof.
  induction l as [|p l IH]; simpl; [reflexivity|].
  now rewrite IH, insert_sample_scale_y.
Qed.

Lemma insert_sample_scale_x k p l :
  0 < k ->
  insert_sample (scale_x k p) (map (scale_x k) l)
  = map (scale_x k) (insert_sample p l).
Proof.
  intros Hk. induction l as [|q t IH]; simpl; [reflexivity|].
  destruct (Rle_dec (fst p) (fst q)) as [H|H];
    destruct (Rle_dec (k * fst p) (k * fst q)) as [H'|H']; simpl.
  - reflexivity.
  - exfalso. apply H'. nra.
  - exfalso. apply H. nra.
  - now rewrite IH.
Qed.

Lemma sort_samples_scale_x k l :
  0 < k ->
  sort_samples (map (scale_x k) l) = map (scale_x k) (sort_samples l).
Proof.
  intros Hk. induction l as [|p l IH]; simpl; [reflexivity|].
  now rewrite IH, insert_sample_scale_x.
Qed.

Lemma combine_scale_y k (xs ys : list R) :
  combine xs (map (fun v => k * v) ys) = map (scale_y k) (combine xs ys).
Proof.
  revert ys. induction xs as [|x xs IH]; intros [|y ys]; simpl; try reflexivity.
  now rewrite IH.
Qed.

Lemma combine_scale_x k (xs ys : list R) :
  combine (map (fun v => k * v) xs) ys = map (scale_x k) (combine xs ys).
Proof.
  revert ys. induction xs as [|x xs IH]; intros [|y ys]; simpl; try reflexivity.
  now rewrite IH.
Qed.

Lemma interp_sorted_scale_y k pts r :
  interp_sorted (map (scale_y k) pts) r = k * interp_sorted pts r.
Proof.
  induction pts as [|[x0 y0] tl IH]; [simpl; ring|].
  destruct tl as [|[x1 y1] tl']; [reflexivity|].
  cbn [map scale_y fst snd interp_sorted] in *.
  destruct (Rlt_dec r x1); [unfold Rdiv; ring|exact IH].
Qed.

Lemma interp_sorted_scale_x k pts r :
  0 < k ->
  interp_sorted (map (scale_x k) pts) (k * r) = interp_sorted pts r.
Proof.
  intros Hk. induction pts as [|[x0 y0] tl IH]; [reflexivity|].
  destruct tl as [|[x1 y1] tl']; [reflexivity|].
  cbn [map scale_x fst snd interp_sorted] in *.
  destruct (Rlt_dec r x1) as [H|H];
    destruct (Rlt_dec (k * r) (k * x1)) as [H'|H'].
  - replace (k * x1 - k * x0) with (k * (x1 - x0)) by ring.
    replace (k * r - k * x0) with (k * (r - x0)) by ring.
    unfold Rdiv. rewrite Rinv_mult.
    replace ((y1 - y0) * (/ k * / (x1 - x0)) * (k * (r - x0)))
      with ((y1 - y0) * / (x1 - x0) * (r - x0) * (k * / k)) by ring.
    rewrite Rinv_r by lra. ring.
  - exfalso. apply H'. nra.
  - exfalso. apply H. nra.
  - exact IH.
Qed.

Lemma last_scale_y k pts :
  fst (last (map (scale_y k) pts) (0, 0)) = fst (last pts (0, 0)).
Proof.
  induction pts as [|p [|q tl] IH]; try reflexivity. exact IH.
Qed.

Lemma last_scale_x k pts :
  fst (last (map (scale_x k) pts) (0, 0)) = k * fst (last pts (0, 0)).
Proof.
  induction pts as [|p [|q tl] IH]; simpl; try ring. exact IH.
Qed.

(** The interpolating function is linear in the ordinates... *)
Lemma interp_eval_scale_y k pts r :
  interp_eval 0 (map (scale_y k) pts) r = k * interp_eval 0 pts r.
Proof.
  unfold interp_eval. rewrite last_scale_y.
  destruct pts as [|[x0 y0] tl]; [simpl; ring|].
  cbn [map scale_y fst snd].
  destruct (Rlt_dec r x0); [ring|].
  destruct (Rlt_dec (fst (last ((x0, y0) :: tl) (0, 0))) r); [ring|].
  exact (interp_sorted_scale_y k ((x0, y0) :: tl) r).
Qed.

(** ... and unchanged when the abscissas and the point are stretched
    alike. *)
Lemma interp_eval_scale_x k pts r :
  0 < k ->
  interp_eval 0 (map (scale_x k) pts) (k * r) = interp_eval 0 pts r.
Proof.
  intros Hk. unfold interp_eval. rewrite last_scale_x.
  destruct pts as [|[x0 y0] tl]; [reflexivity|].
  cbn [map scale_x fst snd].
  set (xl := fst (last ((x0, y0) :: tl) (0, 0))).
  destruct (Rlt_dec r x0) as [H|H];
    destruct (Rlt_dec (k * r) (k * x0)) as [H'|H'];
    try reflexivity; try (exfalso; nra).
  destruct (Rlt_dec xl r) as [G|G];
    destruct (Rlt_dec (k * xl) (k * r)) as [G'|G'];
    try reflexivity; try (exfalso; nra).
  exact (interp_sorted_scale_x k ((x0, y0) :: tl) r Hk).
Qed.

Lemma column_density_scale k dp :
  column_density (map (fun v => k * v) dp)
  = map (fun v => k * v) (column_density dp).
Proof.
  rewrite !column_density_four, !map_map. apply map_ext. intros. ring.
Qed.

Lemma physical_radius_scale k ratio impact phase gs ppr x y :
  physical_radius ratio impact phase gs (k * ppr) x y
  = k * physical_radius ratio impact phase gs ppr x y.
Proof. unfold physical_radius, r_p_entry, Rdiv. ring. Qed.


Section DensityChanges.
Variable ellipse : R -> R -> R -> R -> Z -> Z -> bool.

(** X13: the density map is circularly symmetric about the planet's centre:
    two pixels at the same distance from [(x_p, y_p)] hold the same column
    density. *)
Theorem density_map_circularly_symmetric ratio impact phase gs dpo pr ppr
  flux dens x y x' y' :
  draw_transit ellipse ratio impact phase gs dpo pr ppr = Ok (flux, dens) ->
  in_grid gs x y -> in_grid gs x' y' ->
  ((x - x_p gs phase) ^ 2 + (y - y_p gs impact) ^ 2
   = (x' - x_p gs phase) ^ 2 + (y' - y_p gs impact) ^ 2)%Z ->
  entry dens x y = entry dens x' y'.
Proof.
  intros H [Hx Hy] [Hx' Hy'] Hd. destruct dpo as [dp|].
  - destruct (draw_transit_density _ _ _ _ _ _ _ _ _ _ H)
      as (prs & pprv & _ & _ & _ & _ & ->).
    rewrite !entry_tabulate by assumption.
    unfold physical_radius, r_p_entry. now rewrite Hd.
  - apply draw_transit_no_profile in H. subst dens.
    now rewrite !entry_tabulate.
Qed.

(** X14: the density map does not depend on how the disks are drawn: two
    rasterisers, where both calls return, give the same density map. *)
Theorem density_map_ignores_rasteriser
  (ellipse' : R -> R -> R -> R -> Z -> Z -> bool)
  ratio impact phase gs dpo pr ppr flux dens flux' dens' :
  draw_transit ellipse ratio impact phase gs dpo pr ppr = Ok (flux, dens) ->
  draw_transit ellipse' ratio impact phase gs dpo pr ppr
  = Ok (flux', dens') ->
  dens = dens'.
Proof.
  intros H H'. destruct dpo as [dp|].
  - apply draw_transit_profile_iff in H, H'.
    destruct H as (_ & prs & pprv & -> & -> & _ & _ & _ & _ & ->).
    destruct H' as (_ & prs' & pprv' & E1 & E2 & _ & _ & _ & _ & ->).
    injection E1 as <-. injection E2 as <-. reflexivity.
  - rewrite (draw_transit_no_profile _ _ _ _ _ _ _ _ _ H).
    rewrite (draw_transit_no_profile _ _ _ _ _ _ _ _ _ H').
    reflexivity.
Qed.

(** X15: the density map is linear in the density profile: a profile
    multiplied by [k] gives the same flux map and [k] times the density
    map. *)
Theorem density_map_scales_with_profile k ratio impact phase gs dp pr ppr
  flux dens :
  draw_transit ellipse ratio impact phase gs (Some dp) pr ppr
  = Ok (flux, dens) ->
  draw_transit ellipse ratio impact phase gs
    (Some (map (fun v => k * v) dp)) pr ppr
  = Ok (flux, amap (fun v => k * v) dens).
Proof.
  intros H. apply draw_transit_profile_iff in H.
  destruct H as (Hgs & prs & pprv & -> & -> & Hr & Hlen & Hne & -> & ->).
  apply draw_transit_profile_iff. split; [assumption|].
  exists prs, pprv. repeat (split; [reflexivity || assumption|]).
  split; [now rewrite length_map|]. split; [assumption|].
  split; [reflexivity|].
  rewrite amap_tabulate. apply tabulate_ext. intros x y.
  now rewrite column_density_scale, combine_scale_y, sort_samples_scale_y,
    interp_eval_scale_y.
Qed.

(** X16: the result does not depend on the unit of length: the radii of
    the profile and the physical radius of the planet multiplied by the
    same positive factor give the same two maps. *)
Theorem density_map_unit_invariant k ratio impact phase gs dp prs ppr
  flux dens :
  0 < k ->
  draw_transit ellipse ratio impact phase gs (Some dp) (Some prs) (Some ppr)
  = Ok (flux, dens) ->
  draw_transit ellipse ratio impact phase gs (Some dp)
    (Some (map (fun v => k * v) prs)) (Some (k * ppr))
  = Ok (flux, dens).
Proof.
  intros Hk H. apply draw_transit_profile_iff in H.
  destruct H as (Hgs & prs' & pprv & E1 & E2 & Hr & Hlen & Hne & -> & ->).
  injection E1 as <-. injection E2 as <-.
  apply draw_transit_profile_iff. split; [assumption|].
  exists (map (fun v => k * v) prs), (k * ppr).
  repeat (split; [reflexivity || assumption|]).
  split; [now rewrite length_map|].
  split; [destruct prs; [congruence|discriminate]|].
  split; [reflexivity|].
  apply tabulate_ext. intros x y.
  now rewrite physical_radius_scale, combine_scale_x, sort_samples_scale_x,
    interp_eval_scale_x by assumption.
Qed.

End DensityChanges.

Lemma density_map_circularly_symmetric_witness :
  exists flux dens,
    draw_transit ellipse_geom 1 0 0 3 (Some [1; 1]) (Some [0; 1]) (Some 1)
    = Ok (flux, dens)
    /\ entry dens 0 1 = entry dens 1 2.
Proof.
  destruct (draw_transit_returns_3 [1; 1] 1 eq_refl) as (flux & dens & E).
  exists flux, dens. split; [exact E|].
  apply (density_map_circularly_symmetric ellipse_geom 1 0 0 3
           (Some [1; 1]) (Some [0; 1]) (Some 1) flux dens 0 1 1 2 E).
  - split; lia.
  - split; lia.
  - rewrite x_p_centre, y_p_centre. reflexivity.
Defined.

Lemma density_map_ignores_rasteriser_witness :
  exists flux dens flux' dens',
    draw_transit ellipse_geom 1 0 0 3 (Some [1; 1]) (Some [0; 1]) (Some 1)
    = Ok (flux, dens)
    /\ draw_transit (fun _ _ _ _ _ _ => true) 1 0 0 3 (Some [1; 1])
         (Some [0; 1]) (Some 1)
       = Ok (flux', dens')
    /\ dens = dens'.
Proof.
  destruct (draw_transit_returns_3 [1; 1] 1 eq_refl) as (flux & dens & E).
  destruct (draw_transit_returns (fun _ _ _ _ _ _ => true) 1 0 0 3 [1; 1]
              [0; 1] 1) as (flux' & dens' & E').
  - lia.
  - change (3 / 2)%Z with 1%Z. lra.
  - reflexivity.
  - discriminate.
  - exists flux, dens, flux', dens'. split; [exact E|]. split; [exact E'|].
    exact (density_map_ignores_rasteriser ellipse_geom
             (fun _ _ _ _ _ _ => true) 1 0 0 3 (Some [1; 1]) (Some [0; 1])
             (Some 1) flux dens flux' dens' E E').
Defined.

Lemma density_map_scales_with_profile_witness :
  exists flux dens,
    draw_transit ellipse_geom 1 0 0 3 (Some [1; 1]) (Some [0; 1]) (Some 1)
    = Ok (flux, dens)
    /\ draw_transit ellipse_geom 1 0 0 3 (Some (map (fun v => 3 * v) [1; 1]))
         (Some [0; 1]) (Some 1)
       = Ok (flux, amap (fun v => 3 * v) dens).
Proof.
  destruct (draw_transit_returns_3 [1; 1] 1 eq_refl) as (flux & dens & E).
  exists flux, dens. split; [exact E|].
  exact (density_map_scales_with_profile ellipse_geom 3 1 0 0 3 [1; 1]
           (Some [0; 1]) (Some 1) flux dens E).
Defined.

Lemma density_map_unit_invariant_witness :
  exists flux dens,
    draw_transit ellipse_geom 1 0 0 3 (Some [1; 1]) (Some [0; 1]) (Some 1)
    = Ok (flux, dens)
    /\ draw_transit ellipse_geom 1 0 0 3 (Some [1; 1])
         (Some (map (fun v => 1000 * v) [0; 1])) (Some (1000 * 1))
       = Ok (flux, dens).
Proof.
  destruct (draw_transit_returns_3 [1; 1] 1 eq_refl) as (flux & dens & E).
  exists flux, dens. split; [exact E|].
  apply (density_map_unit_invariant ellipse_geom 1000 1 0 0 3 [1; 1] [0; 1]
           1 flux dens); [lra|exact E].
Defined.


(** ** Values of the density map *)

(** With distinct abscissas, the interpolant at a sample is that sample. *)
Lemma NoDup_fst_unique (s : list (R * R)) a b b' :
  NoDup (map fst s) -> In (a, b) s -> In (a, b') s -> b = b'.
Proof.
  induction s as [|[x y] s IH]; intros Hn H H'; [destruct H|].
  simpl in Hn. inversion Hn as [|? ? Hnotin Hn']; subst.
  destruct H as [H|H], H' as [H'|H'].
  - congruence.
  - injection H as -> ->. exfalso. apply Hnotin.
    apply (in_map fst) in H'. exact H'.
  - injection H' as -> ->. exfalso. apply Hnotin.
    apply (in_map fst) in H. exact H.
  - now apply IH.
Qed.

Lemma linear_interpolant_at_sample s r v w :
  NoDup (map fst s) -> In (r, w) s -> linear_interpolant s r v -> v = w.
Proof.
  intros Hn Hin [H|(x0 & y0 & x1 & y1 & _ & _ & Hr & Hb & _)].
  - exact (NoDup_fst_unique s r v w Hn H Hin).
  - exfalso. apply (Hb _ Hin). exact Hr.
Qed.

Section DensityValues.
Variable ellipse : R -> R -> R -> R -> Z -> Z -> bool.

(** At a pixel whose offsets fit 64 bits, the entry of the second reading
    is the entry of the first. *)
Lemma density_entry_np_at ratio impact phase gs dp prs ppr flux dens x y :
  draw_transit_np ellipse ratio impact phase gs (Some dp) (Some prs)
    (Some ppr)
  = Ok (flux, dens) ->
  in_grid gs x y ->
  offsets_fit_int64 gs phase impact x y ->
  exists flux' dens',
    draw_transit ellipse ratio impact phase gs (Some dp) (Some prs)
      (Some ppr)
    = Ok (flux', dens')
    /\ entry_at dens x y = Some (Fin (entry dens' x y)).
Proof.
  intros H Hin Hfit. apply draw_transit_np_density in H.
  destruct H as (prs' & ppr' & flux' & dens' & E1 & E2 & E & ->).
  injection E1 as <-. injection E2 as <-.
  exists flux', dens'. split; [exact E|].
  rewrite entry_at_gtabulate by assumption.
  now rewrite (density_entry_np_exact _ _ _ _ _ _ _ _ _ _ _ _ E Hin Hfit).
Qed.

(** What [density_entry] gives within the sampled range. *)
Lemma density_entry_cases ratio impact phase gs dp prs ppr flux dens x y :
  draw_transit ellipse ratio impact phase gs (Some dp) (Some prs) (Some ppr)
  = Ok (flux, dens) ->
  in_grid gs x y ->
  length prs = length dp
  /\ (entry dens x y = 0
      \/ (array_min prs <= physical_radius ratio impact phase gs ppr x y
                        <= array_max prs
          /\ linear_interpolant (combine prs (map (fun v => 4 * v) dp))
               (physical_radius ratio impact phase gs ppr x y)
               (entry dens x y))).
Proof.
  intros H Hin.
  destruct (density_entry _ _ _ _ _ _ _ _ _ _ _ _ H Hin) as (Hlen & Hne & E).
  split; [assumption|]. rewrite E.
  set (r := physical_radius ratio impact phase gs ppr x y).
  set (s := combine prs (column_density dp)).
  assert (Hs : s <> []) by now apply samples_nonempty.
  assert (Hfst : map fst s = prs).
  { apply map_fst_combine. now rewrite column_density_length. }
  destruct (Rlt_dec r (array_min prs)) as [Hlo|Hlo].
  { left. apply interp_eval_outside; [assumption|]. rewrite Hfst. now left. }
  destruct (Rlt_dec (array_max prs) r) as [Hhi|Hhi].
  { left. apply interp_eval_outside; [assumption|]. rewrite Hfst. now right. }
  right. split; [lra|]. rewrite <- column_density_four.
  apply interp_eval_inside; [assumption|]. rewrite Hfst. lra.
Qed.

(** X17: the interpolation does not overshoot: every entry of the density
    map, at a pixel whose offsets from the planet's centre fit the 64-bit
    integers of the radius map, is 0 or lies between four times the least
    and four times the greatest entry of the density profile. *)
Theorem density_map_within_profile_bounds ratio impact phase gs dp prs ppr
  flux dens x y :
  draw_transit_np ellipse ratio impact phase gs (Some dp) (Some prs)
    (Some ppr)
  = Ok (flux, dens) ->
  in_grid gs x y ->
  offsets_fit_int64 gs phase impact x y ->
  exists v,
    entry_at dens x y = Some (Fin v)
    /\ (v = 0 \/ 4 * array_min dp <= v <= 4 * array_max dp).
Proof.
  intros H Hin Hfit.
  destruct (density_entry_np_at _ _ _ _ _ _ _ _ _ _ _ H Hin Hfit)
    as (flux' & dens' & E & He).
  exists (entry dens' x y). split; [exact He|].
  destruct (density_entry_cases _ _ _ _ _ _ _ _ _ _ _ E Hin)
    as (_ & [E0|[_ Hi]]); [now left|right].
  refine (linear_interpolant_bounds _ _ _ _ _ _ Hi).
  intros q Hq. apply in_combine_snd_map in Hq. destruct Hq as (d & Hd & ->).
  pose proof (array_min_le dp d Hd). pose proof (array_max_ge dp d Hd). lra.
Qed.

(** X18: with distinct radii the interpolation is exact at the samples: a
    pixel whose physical radius is a radius of the profile, and whose
    offsets from the planet's centre fit the 64-bit integers of the radius
    map, holds four times the density sampled there. *)
Theorem density_map_exact_at_samples ratio impact phase gs dp prs ppr
  flux dens x y d :
  draw_transit_np ellipse ratio impact phase gs (Some dp) (Some prs)
    (Some ppr)
  = Ok (flux, dens) ->
  in_grid gs x y ->
  offsets_fit_int64 gs phase impact x y ->
  NoDup prs ->
  In (physical_radius ratio impact phase gs ppr x y, d) (combine prs dp) ->
  entry_at dens x y = Some (Fin (4 * d)).
Proof.
  intros Hnp Hin Hfit Hn Hd.
  destruct (density_entry_np_at _ _ _ _ _ _ _ _ _ _ _ Hnp Hin Hfit)
    as (flux' & dens' & H & ->).
  do 2 f_equal.
  set (r := physical_radius ratio impact phase gs ppr x y) in *.
  destruct (density_entry_cases _ _ _ _ _ _ _ _ _ _ _ H Hin)
    as (Hlen & Hcases).
  pose proof (in_combine_l _ _ _ _ Hd) as Hr.
  assert (Hs : In (r, 4 * d) (combine prs (map (fun v => 4 * v) dp))).
  { rewrite combine_scale_y. apply in_map_iff. now exists (r, d). }
  assert (Hnd : NoDup (map fst (combine prs (map (fun v => 4 * v) dp)))).
  { rewrite map_fst_combine by (now rewrite length_map). exact Hn. }
  destruct Hcases as [E|[_ Hi]].
  - (* outside the range: impossible, [r] is one of the radii *)
    destruct (density_entry _ _ _ _ _ _ _ _ _ _ _ _ H Hin) as (_ & Hne & E').
    apply (linear_interpolant_at_sample _ r _ _ Hnd Hs).
    fold r in E'. rewrite E'. rewrite <- column_density_four.
    apply interp_eval_inside; [now apply samples_nonempty|].
    rewrite map_fst_combine by (now rewrite column_density_length).
    split; [now apply array_min_le|now apply array_max_ge].
  - exact (linear_interpolant_at_sample _ r _ _ Hnd Hs Hi).
Qed.

End DensityValues.

Lemma density_map_within_profile_bounds_witness :
  exists flux dens,
    draw_transit_np ellipse_geom 1 0 0 3 (Some [1; 1]) (Some [0; 1])
      (Some 1)
    = Ok (flux, dens)
    /\ exists v,
         entry_at dens 1 1 = Some (Fin v)
         /\ (v = 0 \/ 4 * array_min [1; 1] <= v <= 4 * array_max [1; 1]).
Proof.
  destruct (draw_transit_np_returns_3 [1; 1] 1 eq_refl) as (flux & dens & E).
  exists flux, dens. split; [exact E|].
  exact (density_map_within_profile_bounds ellipse_geom 1 0 0 3 [1; 1]
           [0; 1] 1 flux dens 1 1 E in_grid_3_centre
           (offsets_fit_int64_3 1 1 in_grid_3_centre)).
Defined.

Lemma density_map_exact_at_samples_witness :
  exists flux dens,
    draw_transit_np ellipse_geom 1 0 0 3 (Some [2; 3]) (Some [0; 1])
      (Some 1)
    = Ok (flux, dens)
    /\ entry_at dens 1 1 = Some (Fin (4 * 2)).
Proof.
  destruct (draw_transit_np_returns_3 [2; 3] 1 eq_refl) as (flux & dens & E).
  exists flux, dens. split; [exact E|].
  apply (density_map_exact_at_samples ellipse_geom 1 0 0 3 [2; 3] [0; 1] 1
           flux dens 1 1 2 E in_grid_3_centre
           (offsets_fit_int64_3 1 1 in_grid_3_centre)).
  - constructor; [intros [H|[]]; lra|]. constructor; [intros []|constructor].
  - rewrite physical_radius_centre_3. now left.
Defined.
